(** * Speaker diarization post-processing: merging and alignment

    A shallow embedding of [hub_model_code/diarization_utils.py]:

    - the second half of [diarize_audio] (lines 56-87), which merges the
      raw segments of the diarization pipeline into speaker turns;
    - [post_process_segments_and_transcripts] (lines 90-127), which
      attributes the chunks of the ASR transcript to the speaker turns.

    Timestamps are IEEE 754 binary64 numbers, as Python's [float] and
    numpy's [float64] are; they are modelled by Rocq's primitive floats,
    whose operations are specified in [FloatAxioms].  Python exceptions
    are modelled by an error monad. *)

From Stdlib Require Import ZArith Lia Bool String List.
From Stdlib Require Import Floats.
Import ListNotations.

Set Implicit Arguments.

#[local] Open Scope string_scope.
#[local] Open Scope list_scope.
#[local] Open Scope nat_scope.

(* ================================================================== *)
(** ** Python exceptions and the error monad *)

(** The two built-in exceptions the modelled code can raise:
    [IndexError] from [segments[0]] and the like, [ValueError] from
    [np.argmin] on an empty array. *)
Inductive exn : Type :=
| IndexError
| ValueError.

Inductive result (A : Type) : Type :=
| Ok (a : A)
| Raise (e : exn).

Arguments Ok {A} a.
Arguments Raise {A} e.

Definition bind {A B : Type} (m : result A) (k : A -> result B) : result B :=
  match m with
  | Ok a => k a
  | Raise e => Raise e
  end.

Notation "x <- m ;; k" := (bind m (fun x => k))
  (at level 61, m at next level, right associativity).

(** [xs[i]] for a non-negative index. *)
Definition getitem {A : Type} (xs : list A) (i : nat) : result A :=
  match nth_error xs i with
  | Some x => Ok x
  | None => Raise IndexError
  end.

(** [for i in idxs: st = body(i, st)], stopping at the first exception. *)
Fixpoint for_each {I S : Type} (body : I -> S -> result S)
    (idxs : list I) (st : S) : result S :=
  match idxs with
  | [] => Ok st
  | i :: idxs' => st' <- body i st ;; for_each body idxs' st'
  end.

(** [range(lo, hi)] *)
Definition range (lo hi : nat) : list nat := seq lo (hi - lo).

(* ================================================================== *)
(** ** Data model *)

(** [{"start": ..., "end": ...}] *)
Record interval : Type := Interval {
  start : float;
  end_ : float
}.

(** One emission of the diarization pipeline, as built at lines 44-52:
    [{"segment": ..., "track": ..., "label": ...}]. *)
Record raw_segment : Type := RawSegment {
  raw_interval : interval;
  track : string;
  label : string
}.

(** A merged speaker turn: [{"segment": ..., "speaker": ...}]. *)
Record speaker_turn : Type := SpeakerTurn {
  segment : interval;
  speaker : string
}.

(** One ASR chunk: [{"text": ..., "timestamp": (start, end)}], where the
    end of the last chunk may be [None]. *)
Record chunk : Type := Chunk {
  text : string;
  timestamp : float * option float
}.

(** An element of [segmented_preds].  Both output shapes have the same
    keys: the grouped dict is built with ["speaker"], ["text"] and
    ["timestamp"], the per-chunk dict is [{"speaker": ..., **chunk}]. *)
Record pred : Type := Pred {
  pred_speaker : string;
  pred_text : string;
  pred_timestamp : float * option float
}.

(* ================================================================== *)
(** ** [diarize_audio], lines 56-87: merging raw segments *)

(** The variables of the merging loop. *)
Record merge_state : Type := MergeState {
  prev_segment : raw_segment;
  cur_segment : raw_segment;
  new_segments : list speaker_turn
}.

(** Lines 65-73: the super-segment that is closed on a speaker change. *)
Definition closed_turn (prev cur : raw_segment) : speaker_turn :=
  {| segment := {| start := start (raw_interval prev);
                   end_ := start (raw_interval cur) |};
     speaker := label prev |}.

(** Lines 77-85: the last super-segment. *)
Definition last_turn (prev cur : raw_segment) : speaker_turn :=
  {| segment := {| start := start (raw_interval prev);
                   end_ := end_ (raw_interval cur) |};
     speaker := label prev |}.

(** Lines 60-74: one iteration of [for i in range(1, len(segments))]. *)
Definition merge_body (segments : list raw_segment) (i : nat)
    (st : merge_state) : result merge_state :=
  cur <- getitem segments i ;;
  if negb (label cur =? label (prev_segment st))%string
     && (i <? length segments)
  then
    prev' <- getitem segments i ;;
    Ok {| prev_segment := prev';
          cur_segment := cur;
          new_segments :=
            new_segments st ++ [closed_turn (prev_segment st) cur] |}
  else
    Ok {| prev_segment := prev_segment st;
          cur_segment := cur;
          new_segments := new_segments st |}.

(** Lines 56-87.  The argument is the list [segments] built from the
    pipeline's tracks at lines 44-52. *)
Definition diarize_audio (segments : list raw_segment)
    : result (list speaker_turn) :=
  first <- getitem segments 0 ;;
  st <- for_each (merge_body segments) (range 1 (length segments))
          {| prev_segment := first; cur_segment := first;
             new_segments := [] |} ;;
  Ok (new_segments st ++ [last_turn (prev_segment st) (cur_segment st)]).

(* ================================================================== *)
(** ** [post_process_segments_and_transcripts], lines 90-127 *)

(** [sys.float_info.max], the largest finite binary64 number. *)
Definition float_max : float := 0x1.fffffffffffffp+1023%float.

(** Line 93: the end timestamp of a chunk, or [sys.float_info.max] when
    it is [None]. *)
Definition end_timestamp (c : chunk) : float :=
  match snd (timestamp c) with
  | Some e => e
  | None => float_max
  end.

(** The scan of numpy's [argmin] over a float array after its first
    element: [mp] is the least value met so far, [min_ind] its index and
    [i] the index of the head of [ip].  An element replaces [mp] when
    [mp <= element] does not hold, and the scan stops at the first NaN. *)
Fixpoint argmin_scan (mp : float) (min_ind i : nat) (ip : list float) : nat :=
  match ip with
  | [] => min_ind
  | x :: ip' =>
      if negb (mp <=? x)%float
      then if is_nan x then i else argmin_scan x i (S i) ip'
      else argmin_scan mp min_ind (S i) ip'
  end.

(** [np.argmin(a)] for a one-dimensional float array: the index of the
    first occurrence of the minimum, a NaN counting as minimal;
    [ValueError] on an empty array. *)
Definition np_argmin (a : list float) : result nat :=
  match a with
  | [] => Raise ValueError
  | x :: a' => if is_nan x then Ok 0 else Ok (argmin_scan x 0 1 a')
  end.

(** The variables the alignment loop updates. *)
Record align_state : Type := AlignState {
  transcript : list chunk;
  end_timestamps : list float;
  segmented_preds : list pred
}.

(** Line 118: [{"speaker": segment["speaker"], **transcript[i]}]. *)
Definition with_speaker (seg : speaker_turn) (c : chunk) : pred :=
  {| pred_speaker := speaker seg;
     pred_text := text c;
     pred_timestamp := timestamp c |}.

(** Lines 98-122: one iteration of [for segment in new_segments], up to
    the test of line 124. *)
Definition align_body (group_by_speaker : bool) (seg : speaker_turn)
    (st : align_state) : result align_state :=
  let end_time := end_ (segment seg) in
  upto_idx <- np_argmin
    (map (fun e => abs (e - end_time))%float (end_timestamps st)) ;;
  preds <-
    (if group_by_speaker then
       let joined :=
         String.concat "" (map text (firstn (upto_idx + 1) (transcript st))) in
       first <- getitem (transcript st) 0 ;;
       upto <- getitem (transcript st) upto_idx ;;
       Ok (segmented_preds st ++
             [{| pred_speaker := speaker seg;
                 pred_text := joined;
                 pred_timestamp :=
                   (fst (timestamp first), snd (timestamp upto)) |}])
     else
       for_each
         (fun i acc =>
            c <- getitem (transcript st) i ;;
            Ok (acc ++ [with_speaker seg c]))
         (range 0 (upto_idx + 1)) (segmented_preds st)) ;;
  Ok {| transcript := skipn (upto_idx + 1) (transcript st);
        end_timestamps := skipn (upto_idx + 1) (end_timestamps st);
        segmented_preds := preds |}.

(** Lines 97-125: the loop over the speaker turns, with its [break]. *)
Fixpoint align_loop (group_by_speaker : bool) (segs : list speaker_turn)
    (st : align_state) : result align_state :=
  match segs with
  | [] => Ok st
  | seg :: segs' =>
      st' <- align_body group_by_speaker seg st ;;
      if length (end_timestamps st') =? 0 then Ok st'
      else align_loop group_by_speaker segs' st'
  end.

(** Lines 92-94: the state before the loop. *)
Definition align_init (chunks : list chunk) : align_state :=
  {| transcript := chunks;
     end_timestamps := map end_timestamp chunks;
     segmented_preds := [] |}.

Definition post_process_segments_and_transcripts
    (new_segments : list speaker_turn) (chunks : list chunk)
    (group_by_speaker : bool) : result (list pred) :=
  st <- align_loop group_by_speaker new_segments (align_init chunks) ;;
  Ok (segmented_preds st).

(* ================================================================== *)
(** ** The examples of the specification *)

Module Examples.
#[local] Open Scope float_scope.

Definition seg (s e : float) (l : string) : raw_segment :=
  {| raw_interval := {| start := s; end_ := e |}; track := "_"; label := l |}.
Definition turn (s e : float) (l : string) : speaker_turn :=
  {| segment := {| start := s; end_ := e |}; speaker := l |}.
Definition chk (t : string) (s e : float) : chunk :=
  {| text := t; timestamp := (s, Some e) |}.

Definition raw_segments : list raw_segment :=
  [seg 0 1 "A"; seg 1 1.5 "A"; seg 1.5 2 "B"].

(** The turns the raw segments merge to. *)
Definition merged_turns : list speaker_turn :=
  [turn 0 1.5 "A"; turn 1.5 2 "B"].

(** The turns of the alignment example. *)
Definition turns : list speaker_turn :=
  [turn 0 1.5 "A"; turn 1.5 3 "B"].

Definition hi : chunk := chk "hi" 0 1.
Definition there : chunk := chk " there" 1 0x1.999999999999ap+0.
Definition bob : chunk := chk " bob" 0x1.999999999999ap+0 3.

(** End times 1.0, 1.6 and 3.0; 1.6 is the binary64 number
    [0x1.999999999999ap+0]. *)
Definition chunks : list chunk := [hi; there; bob].
End Examples.

(* ================================================================== *)
(** ** Notions used to state the properties *)

(** *** Merging *)

(** The merging loop as a recursion over the segments that are left:
    [prev] and [cur] are the loop variables.  [diarize_audio_unfold]
    shows that [diarize_audio] computes it. *)
Fixpoint merge_from (prev cur : raw_segment) (rest : list raw_segment)
    : list speaker_turn :=
  match rest with
  | [] => [last_turn prev cur]
  | s :: rest' =>
      if (label s =? label prev)%string
      then merge_from prev s rest'
      else closed_turn prev s :: merge_from s s rest'
  end.

(** The number of positions where two consecutive raw segments carry
    different speaker labels. *)
Fixpoint label_changes (segments : list raw_segment) : nat :=
  match segments with
  | [] => 0
  | a :: tl =>
      match tl with
      | [] => 0
      | b :: _ => (if (label a =? label b)%string then 0 else 1)
                  + label_changes tl
      end
  end.

(** Each turn ends where the next one starts, and two adjacent turns have
    different speakers. *)
Fixpoint contiguous (turns : list speaker_turn) : Prop :=
  match turns with
  | [] => True
  | a :: tl =>
      match tl with
      | [] => True
      | b :: _ => end_ (segment a) = start (segment b)
                  /\ speaker a <> speaker b
                  /\ contiguous tl
      end
  end.

(** *** Alignment *)

(** [m] is a least element of [a] at index [k], and every element before
    index [k] is strictly greater. *)
Definition first_least (a : list float) (k : nat) (m : float) : Prop :=
  nth_error a k = Some m /\
  forall j x, nth_error a j = Some x ->
    (m <=? x)%float = true /\ (j < k -> (m <? x)%float = true).


(** The chunk a per-chunk prediction was built from. *)
Definition chunk_of (p : pred) : chunk :=
  {| text := pred_text p; timestamp := pred_timestamp p |}.

(** The absolute difference between a chunk's effective end time and a
    target time, as line 101 computes it. *)
Definition distance (target : float) (c : chunk) : float :=
  abs (end_timestamp c - target)%float.

(** The specification's side of the comparison, written from its words
    and not from the code: the very large number that stands for a null
    end (the largest finite binary64 number), the effective end of a
    chunk (its end, or that number when the end is null), and the
    absolute difference between the effective end and a target time. *)
Definition very_large_end : float := 0x1.fffffffffffffp+1023%float.

Definition effective_end (c : chunk) : float :=
  match timestamp c with
  | (_, Some e) => e
  | (_, None) => very_large_end
  end.

Definition absolute_difference (target : float) (c : chunk) : float :=
  abs (effective_end c - target)%float.

(** None of the absolute differences between a turn's end and a chunk's
    effective end is a NaN (a NaN arises only from infinite or NaN
    timestamps). *)
Definition comparable (turns : list speaker_turn) (chunks : list chunk)
    : bool :=
  forallb
    (fun t => forallb
       (fun c => negb (is_nan (absolute_difference (end_ (segment t)) c)))
       chunks)
    turns.

(** Index [k] of [chunks] has minimal absolute difference to [target],
    and it is the lowest such index: every chunk before it is strictly
    farther. *)
Definition closest_index (chunks : list chunk) (target : float) (k : nat)
    : Prop :=
  exists ck, nth_error chunks k = Some ck /\
  forall j cj, nth_error chunks j = Some cj ->
    (absolute_difference target ck <=? absolute_difference target cj)%float
    = true /\
    (j < k ->
     (absolute_difference target ck <? absolute_difference target cj)%float
     = true).

(** The attribution of chunks to turns as the specification words it:
    the turns are taken in order; each one gets the chunks from the front
    of the working set up to and including the closest index; these
    chunks leave the working set; and the attribution stops when the
    working set is empty. *)
Inductive attributes
    : list speaker_turn -> list chunk
      -> list (speaker_turn * list chunk) -> Prop :=
| attributes_no_turn chunks :
    attributes [] chunks []
| attributes_exhausted t turns chunks k :
    closest_index chunks (end_ (segment t)) k ->
    skipn (S k) chunks = [] ->
    attributes (t :: turns) chunks [(t, firstn (S k) chunks)]
| attributes_next t turns chunks k groups :
    closest_index chunks (end_ (segment t)) k ->
    skipn (S k) chunks <> [] ->
    attributes turns (skipn (S k) chunks) groups ->
    attributes (t :: turns) chunks ((t, firstn (S k) chunks) :: groups).

(** The per-chunk output of an attribution, as the specification words
    it: one prediction per attributed chunk, in order, with the speaker
    of the chunk's turn and the chunk's own text and timestamp. *)
Definition per_chunk_output (groups : list (speaker_turn * list chunk))
    (out : list pred) : Prop :=
  Forall2
    (fun tc p =>
       pred_speaker p = speaker (fst tc) /\
       pred_text p = text (snd tc) /\
       pred_timestamp p = timestamp (snd tc))
    (flat_map (fun grp => map (pair (fst grp)) (snd grp)) groups)
    out.

(** The grouped output of an attribution, as the specification words it:
    one segment per turn, in order, with the turn's speaker and the texts
    of its chunks joined in order without separator. *)
Definition grouped_output (groups : list (speaker_turn * list chunk))
    (out : list pred) : Prop :=
  Forall2
    (fun grp p =>
       pred_speaker p = speaker (fst grp) /\
       pred_text p = String.concat "" (map text (snd grp)))
    groups out.

(** The index at which a turn cuts the working set (lines 99-101). *)
Definition cut_index (chunks : list chunk) (seg : speaker_turn)
    : result nat :=
  np_argmin (map (distance (end_ (segment seg))) chunks).

(** The grouped prediction of a turn and the chunks attributed to it, as
    lines 104-115 build it. *)
Definition grouped_pred (seg : speaker_turn) (group : list chunk) : pred :=
  {| pred_speaker := speaker seg;
     pred_text := String.concat "" (map text group);
     pred_timestamp :=
       (match group with
        | c :: _ => fst (timestamp c)
        | [] => 0%float
        end,
        match rev group with
        | c :: _ => snd (timestamp c)
        | [] => None
        end) |}.

(** What an iteration appends to [segmented_preds] for the chunks
    attributed to a turn. *)
Definition emitted (group_by_speaker : bool) (seg : speaker_turn)
    (group : list chunk) : list pred :=
  if group_by_speaker then [grouped_pred seg group]
  else map (with_speaker seg) group.

(** The groups each iteration of the alignment loop consumes, from a
    working set [chunks]: a trace of the loop, related to it by
    [align_loop_trace]. *)
Fixpoint consumed (turns : list speaker_turn) (chunks : list chunk)
    : result (list (speaker_turn * list chunk)) :=
  match turns with
  | [] => Ok []
  | t :: turns' =>
      k <- cut_index chunks t ;;
      match skipn (S k) chunks with
      | [] => Ok [(t, firstn (S k) chunks)]
      | rest =>
          groups <- consumed turns' rest ;;
          Ok ((t, firstn (S k) chunks) :: groups)
      end
  end.

Definition render (group_by_speaker : bool)
    (groups : list (speaker_turn * list chunk)) : list pred :=
  flat_map (fun g => emitted group_by_speaker (fst g) (snd g)) groups.

(** The state of the loop once it has consumed the groups of a trace:
    the working set has lost their chunks and [segmented_preds] has
    gained their predictions. *)
Definition consume (group_by_speaker : bool) (st : align_state)
    (groups : list (speaker_turn * list chunk)) : align_state :=
  let rest := skipn (length (concat (map snd groups))) (transcript st) in
  {| transcript := rest;
     end_timestamps := map end_timestamp rest;
     segmented_preds := segmented_preds st ++ render group_by_speaker groups |}.

(** [end_timestamps] holds the effective end times of [transcript]. *)
Definition consistent (st : align_state) : Prop :=
  end_timestamps st = map end_timestamp (transcript st).

(* ================================================================== *)
(** ** [diarize], lines 130-141, and the rest of [diarize_audio] *)

(** What [diarization.itertracks(yield_label=True)] yields at line 45:
    a segment, a track name and a speaker label. *)
Definition itertrack : Type := (interval * string * string)%type.

(** Lines 44-52: the list [segments] built from the pipeline's tracks. *)
Definition itertracks_segments (tracks : list itertrack)
    : list raw_segment :=
  map (fun trk =>
         let '(seg, name, lbl) := trk in
         {| raw_interval := {| start := start seg; end_ := end_ seg |};
            track := name;
            label := lbl |})
      tracks.

(** Lines 130-141, from the point where the audio is decoded and the
    diarization pipeline has run: [tracks] is what the pipeline yields
    and [chunks] is [asr_outputs["chunks"]].  The turns of [diarize_audio]
    are aligned in per-chunk mode. *)
Definition diarize (tracks : list itertrack) (chunks : list chunk)
    : result (list pred) :=
  segments <- diarize_audio (itertracks_segments tracks) ;;
  post_process_segments_and_transcripts segments chunks false.

(** *** Further notions *)

(** A list of labels without its consecutive repetitions. *)
Fixpoint dedup_adjacent (labels : list string) : list string :=
  match labels with
  | [] => []
  | a :: tl =>
      match tl with
      | [] => [a]
      | b :: _ => if (a =? b)%string then dedup_adjacent tl
                  else a :: dedup_adjacent tl
      end
  end.

(** A speaker turn read back as a raw segment of track [name]. *)
Definition turn_as_raw (name : string) (t : speaker_turn) : raw_segment :=
  {| raw_interval := segment t; track := name; label := speaker t |}.

(** What merging reads of a raw segment that is not the last one. *)
Definition start_and_label (s : raw_segment) : float * string :=
  (start (raw_interval s), label s).

(** What alignment reads of a speaker turn. *)
Definition end_and_speaker (t : speaker_turn) : float * string :=
  (end_ (segment t), speaker t).

(* ================================================================== *)
(** ** Merging: the loop and its recursive form *)

Lemma getitem_middle (A : Type) (pre : list A) (x : A) (post : list A) :
  getitem (pre ++ x :: post) (length pre) = Ok x.
Proof.
  unfold getitem. rewrite nth_error_app2 by lia.
  rewrite Nat.sub_diag. reflexivity.
Qed.

Lemma merge_loop (rest pre : list raw_segment) (prev cur : raw_segment)
    (acc : list speaker_turn) :
  (st <- for_each (merge_body (pre ++ rest))
           (seq (length pre) (length rest))
           {| prev_segment := prev; cur_segment := cur;
              new_segments := acc |} ;;
   Ok (new_segments st ++ [last_turn (prev_segment st) (cur_segment st)]))
  = Ok (acc ++ merge_from prev cur rest).
Proof.
  revert pre prev cur acc.
  induction rest as [|s rest IH]; intros pre prev cur acc.
  - reflexivity.
  - cbn [length seq for_each merge_from].
    unfold merge_body at 1. rewrite getitem_middle.
    cbn [bind prev_segment cur_segment new_segments].
    assert (Hlt : (length pre <? length (pre ++ s :: rest)) = true).
    { apply Nat.ltb_lt. rewrite length_app. cbn. lia. }
    rewrite Hlt, andb_true_r.
    assert (Hshift : pre ++ s :: rest = (pre ++ [s]) ++ rest)
      by (rewrite <- app_assoc; reflexivity).
    assert (Hlen : S (length pre) = length (pre ++ [s]))
      by (rewrite length_app; cbn; lia).
    destruct (label s =? label prev)%string; cbn [negb bind].
    + rewrite Hshift, Hlen. apply IH.
    + rewrite Hshift, Hlen, IH, <- app_assoc. reflexivity.
Qed.

(** On a non-empty list, [diarize_audio] returns [merge_from] started at
    the first segment. *)
Lemma diarize_audio_unfold (s : raw_segment) (rest : list raw_segment) :
  diarize_audio (s :: rest) = Ok (merge_from s s rest).
Proof.
  unfold diarize_audio, range. cbn [getitem nth_error bind length].
  rewrite Nat.sub_succ, Nat.sub_0_r.
  apply (merge_loop rest [s] s s []).
Qed.

Lemma last_cons (A : Type) (x d : A) (l : list A) :
  last (x :: l) d = last l x.
Proof.
  revert x d. induction l as [|y l IH]; intros x d.
  - reflexivity.
  - change (last (x :: y :: l) d) with (last (y :: l) d).
    rewrite IH. symmetry. apply IH.
Qed.

(** Segments that carry the label of the super-segment only move [cur]. *)
Lemma merge_from_same_label (same rest : list raw_segment)
    (prev cur : raw_segment) :
  Forall (fun x => label x = label prev) same ->
  merge_from prev cur (same ++ rest) = merge_from prev (last same cur) rest.
Proof.
  revert cur. induction same as [|x same IH]; intros cur Hsame.
  - reflexivity.
  - inversion Hsame as [|? ? Hx Hrest]; subst.
    cbn [app merge_from]. rewrite Hx, String.eqb_refl, IH by assumption.
    rewrite last_cons. reflexivity.
Qed.

(** The first turn of [merge_from] starts at [prev] and has its label. *)
Lemma merge_from_head (rest : list raw_segment) (prev cur : raw_segment) :
  exists t tl, merge_from prev cur rest = t :: tl
    /\ start (segment t) = start (raw_interval prev)
    /\ speaker t = label prev.
Proof.
  revert cur. induction rest as [|s rest IH]; intros cur; cbn [merge_from].
  - eexists _, _. split; [reflexivity | split; reflexivity].
  - destruct (label s =? label prev)%string.
    + apply IH.
    + eexists _, _. split; [reflexivity | split; reflexivity].
Qed.

Lemma merge_from_length (rest : list raw_segment) (prev cur : raw_segment) :
  label cur = label prev ->
  length (merge_from prev cur rest) = 1 + label_changes (cur :: rest).
Proof.
  revert prev cur. induction rest as [|s rest IH]; intros prev cur Hcur.
  - reflexivity.
  - cbn [merge_from]. change (label_changes (cur :: s :: rest))
      with ((if (label cur =? label s)%string then 0 else 1)
            + label_changes (s :: rest)).
    rewrite Hcur, (String.eqb_sym (label prev) (label s)).
    destruct (label s =? label prev)%string eqn:E.
    + apply String.eqb_eq in E. rewrite IH by assumption. reflexivity.
    + cbn [length]. rewrite IH by reflexivity. lia.
Qed.

Lemma merge_from_last (rest : list raw_segment) (prev cur : raw_segment) :
  exists turns prev',
    merge_from prev cur rest = turns ++ [last_turn prev' (last rest cur)].
Proof.
  revert prev cur. induction rest as [|s rest IH]; intros prev cur.
  - exists [], prev. reflexivity.
  - cbn [merge_from].
    rewrite last_cons.
    destruct (label s =? label prev)%string.
    + apply IH.
    + destruct (IH s s) as (turns & prev' & ->).
      exists (closed_turn prev s :: turns), prev'. reflexivity.
Qed.

Lemma merge_from_contiguous (rest : list raw_segment)
    (prev cur : raw_segment) :
  contiguous (merge_from prev cur rest).
Proof.
  revert prev cur. induction rest as [|s rest IH]; intros prev cur.
  - exact I.
  - cbn [merge_from]. destruct (label s =? label prev)%string eqn:E.
    + apply IH.
    + destruct (merge_from_head rest s s) as (t & tl & Heq & Hstart & Hsp).
      specialize (IH s s). rewrite Heq in *. cbn [contiguous].
      split; [|split].
      * cbn. symmetry. exact Hstart.
      * cbn. rewrite Hsp. intros Hl. apply String.eqb_neq in E. congruence.
      * exact IH.
Qed.

(* ================================================================== *)
(** ** Properties of merging *)

(** C4.  When the scan meets the first segment [nxt] whose label differs
    from that of the current super-segment (begun at [s] and continued by
    the segments [same] of the same label), it closes the super-segment
    as a turn that runs from the start of [s] to the START of [nxt], with
    the label of [s], and goes on from [nxt] as it would on the list that
    begins at [nxt].  In particular the raw segments
    [(0,1,A); (1,1.5,A); (1.5,2,B)] merge to [(0,1.5,A); (1.5,2,B)]. *)
Theorem merge_closes_turn_at_next_start :
  (forall (s : raw_segment) (same : list raw_segment) (nxt : raw_segment)
          (rest : list raw_segment),
      Forall (fun x => label x = label s) same ->
      label nxt <> label s ->
      exists turns,
        diarize_audio (nxt :: rest) = Ok turns /\
        diarize_audio (s :: same ++ nxt :: rest)
        = Ok ({| segment := {| start := start (raw_interval s);
                               end_ := start (raw_interval nxt) |};
                 speaker := label s |} :: turns))
  /\ diarize_audio Examples.raw_segments = Ok Examples.merged_turns.
Proof.
  split.
  - intros s same nxt rest Hsame Hnxt.
    exists (merge_from nxt nxt rest). split.
    + apply diarize_audio_unfold.
    + rewrite diarize_audio_unfold, merge_from_same_label by assumption.
      cbn [merge_from]. apply String.eqb_neq in Hnxt. rewrite Hnxt.
      reflexivity.
  - vm_compute. reflexivity.
Qed.

Lemma merge_closes_turn_at_next_start_witness :
  exists turns,
    diarize_audio [Examples.seg 1.5 2 "B"] = Ok turns /\
    diarize_audio
      (Examples.seg 0 1 "A" :: [Examples.seg 1 1.5 "A"]
         ++ Examples.seg 1.5 2 "B" :: [])
    = Ok ({| segment := {| start := 0%float; end_ := 1.5%float |};
             speaker := "A" |} :: turns).
Proof.
  apply (proj1 merge_closes_turn_at_next_start
           (Examples.seg 0 1 "A") [Examples.seg 1 1.5 "A"]
           (Examples.seg 1.5 2 "B") []).
  - repeat constructor.
  - simpl. discriminate.
Defined.

(** C5.  Merging a non-empty list of raw segments gives one turn more
    than there are positions where two consecutive raw segments differ in
    their speaker label. *)
Theorem merge_turn_count (s : raw_segment) (rest : list raw_segment) :
  exists turns,
    diarize_audio (s :: rest) = Ok turns /\
    length turns = 1 + label_changes (s :: rest).
Proof.
  exists (merge_from s s rest). split.
  - apply diarize_audio_unfold.
  - apply merge_from_length. reflexivity.
Qed.

(** The last run of a non-empty list: a segment [r] followed only by
    segments of its label, and preceded by nothing or by a segment of
    another label. *)
Lemma last_run_exists (rest : list raw_segment) :
  forall s : raw_segment,
  exists pre r same,
    s :: rest = pre ++ r :: same /\
    Forall (fun x => label x = label r) same /\
    (pre = [] \/ label (last pre r) <> label r).
Proof.
  induction rest as [|s2 rest IH]; intros s.
  - exists [], s, []. repeat split; [constructor | left; reflexivity].
  - destruct (IH s2) as (pre & r & same & Heq & Hsame & Hpre).
    destruct pre as [|p pre].
    + cbn [app] in Heq. injection Heq as <- <-.
      destruct (label s =? label s2)%string eqn:E.
      * apply String.eqb_eq in E. exists [], s, (s2 :: rest).
        split; [reflexivity|]. split; [|left; reflexivity].
        constructor; [symmetry; exact E|].
        eapply Forall_impl; [|exact Hsame]. cbn beta. congruence.
      * apply String.eqb_neq in E. exists [s], s2, rest.
        split; [reflexivity|]. split; [exact Hsame|]. right. exact E.
    + exists (s :: p :: pre), r, same.
      split; [rewrite Heq; reflexivity|]. split; [exact Hsame|]. right.
      destruct Hpre as [Hnil|Hne]; [discriminate Hnil | exact Hne].
Qed.

(** After segments that end with another label, the scan closes what it
    has and flushes the last run as one turn. *)
Lemma merge_from_last_run (r : raw_segment) (same l : list raw_segment) :
  Forall (fun x => label x = label r) same ->
  forall prev cur : raw_segment,
    label cur = label prev ->
    label (last l cur) <> label r ->
    exists turns,
      merge_from prev cur (l ++ r :: same)
      = turns ++ [last_turn r (last same r)].
Proof.
  intros Hsame. induction l as [|x l IH]; intros prev cur Hcur Hlast.
  - cbn [last app merge_from] in *.
    assert (E : (label r =? label prev)%string = false)
      by (apply String.eqb_neq; congruence).
    rewrite E. exists [closed_turn prev r].
    rewrite <- (app_nil_r same) at 1.
    rewrite merge_from_same_label by assumption. reflexivity.
  - rewrite last_cons in Hlast. cbn [app merge_from].
    destruct (label x =? label prev)%string eqn:E.
    + apply String.eqb_eq in E. apply IH; assumption.
    + destruct (IH x x eq_refl Hlast) as (turns & ->).
      exists (closed_turn prev x :: turns). reflexivity.
Qed.

(** C6.  Every non-empty list of raw segments ends with a last run: a
    segment [r] that opens the final super-segment (it is the first
    segment, or the segment before it has another label) and the
    segments [same] of the same label after it.  After the scan, merging
    emits this final super-segment as the last turn: it starts at the
    start of [r], ends at the END of the last raw segment and has the
    label of [r]; before it come as many turns as there are label
    changes.  In particular a single raw segment gives exactly one turn,
    with that segment's interval and label. *)
Theorem merge_flushes_last_turn :
  (forall (pre : list raw_segment) (r : raw_segment)
          (same : list raw_segment),
      Forall (fun x => label x = label r) same ->
      pre = [] \/ label (last pre r) <> label r ->
      exists turns,
        diarize_audio (pre ++ r :: same)
        = Ok (turns ++
              [{| segment := {| start := start (raw_interval r);
                                end_ := end_ (raw_interval (last same r)) |};
                  speaker := label r |}]) /\
        length turns = label_changes (pre ++ r :: same))
  /\ (forall (s : raw_segment) (rest : list raw_segment),
         exists pre r same,
           s :: rest = pre ++ r :: same /\
           Forall (fun x => label x = label r) same /\
           (pre = [] \/ label (last pre r) <> label r))
  /\ (forall s : raw_segment,
         diarize_audio [s]
         = Ok [{| segment := raw_interval s; speaker := label s |}]).
Proof.
  split; [|split].
  - intros pre r same Hsame Hpre.
    assert (Hturns : exists turns,
               diarize_audio (pre ++ r :: same)
               = Ok (turns ++ [last_turn r (last same r)])).
    { destruct pre as [|p pre].
      - exists []. cbn [app]. rewrite diarize_audio_unfold.
        rewrite <- (app_nil_r same) at 1.
        rewrite merge_from_same_label by assumption. reflexivity.
      - destruct Hpre as [Hnil|Hne]; [discriminate Hnil|].
        rewrite last_cons in Hne. cbn [app].
        rewrite diarize_audio_unfold.
        destruct (@merge_from_last_run r same pre Hsame p p eq_refl Hne)
          as (turns & ->).
        exists turns. reflexivity. }
    destruct Hturns as (turns & Hturns). exists turns.
    split; [exact Hturns|].
    destruct (pre ++ r :: same) as [|s rest] eqn:Hl;
      [destruct pre; discriminate Hl|].
    rewrite diarize_audio_unfold in Hturns. injection Hturns as Hturns.
    pose proof (@merge_from_length rest s s eq_refl) as Hlen.
    rewrite Hturns, length_app in Hlen. cbn [length] in Hlen. lia.
  - intros s rest. apply last_run_exists.
  - intros [[st en] tr lb]. reflexivity.
Qed.

Lemma merge_flushes_last_turn_witness :
  exists turns,
    diarize_audio
      ([Examples.seg 0 1 "B"] ++
       Examples.seg 1 2 "A" :: [Examples.seg 2 3 "A"; Examples.seg 4 5 "A"])
    = Ok (turns ++
          [{| segment := {| start := 1%float; end_ := 5%float |};
              speaker := "A" |}]) /\
    length turns
    = label_changes
        ([Examples.seg 0 1 "B"] ++
         Examples.seg 1 2 "A" :: [Examples.seg 2 3 "A"; Examples.seg 4 5 "A"]).
Proof.
  apply (proj1 merge_flushes_last_turn [Examples.seg 0 1 "B"]
           (Examples.seg 1 2 "A")
           [Examples.seg 2 3 "A"; Examples.seg 4 5 "A"]).
  - repeat constructor.
  - right. simpl. discriminate.
Defined.

(** C9.  Merging an empty list of raw segments fails: [segments[0]]
    raises [IndexError], the failure the specification calls
    [InvalidInputError]. *)
Theorem merge_empty_fails :
  diarize_audio [] = Raise IndexError.
Proof. reflexivity. Qed.

(** C10.  When the raw segments contain at least one change of speaker
    label, merging gives at least two turns, each turn ends exactly where
    the next one starts, and two adjacent turns never have the same
    speaker. *)
Theorem merge_turns_contiguous (s : raw_segment) (rest : list raw_segment) :
  1 <= label_changes (s :: rest) ->
  exists turns,
    diarize_audio (s :: rest) = Ok turns /\
    2 <= length turns /\
    contiguous turns.
Proof.
  intros Hchange. exists (merge_from s s rest). split; [|split].
  - apply diarize_audio_unfold.
  - rewrite merge_from_length by reflexivity. lia.
  - apply merge_from_contiguous.
Qed.

Lemma merge_turns_contiguous_witness :
  exists turns,
    diarize_audio Examples.raw_segments = Ok turns /\
    2 <= length turns /\
    contiguous turns.
Proof.
  apply (merge_turns_contiguous (Examples.seg 0 1 "A")
           [Examples.seg 1 1.5 "A"; Examples.seg 1.5 2 "B"]).
  simpl. lia.
Defined.

(* ================================================================== *)
(** ** The order of binary64 numbers

    The comparisons of primitive floats are those of [SpecFloat]; away
    from NaN they form a total preorder. *)

Ltac split_signs :=
  repeat match goal with
         | s : bool |- _ => destruct s
         end;
  simpl in *; try congruence; try reflexivity.

Ltac split_compare :=
  change (Pos.compare_cont Eq) with Pos.compare in *;
  repeat match goal with
         | |- context [Z.compare ?a ?b] => destruct (Z.compare_spec a b)
         | H : context [Z.compare ?a ?b] |- _ => destruct (Z.compare_spec a b)
         | |- context [Pos.compare ?a ?b] => destruct (Pos.compare_spec a b)
         | H : context [Pos.compare ?a ?b] |- _ =>
             destruct (Pos.compare_spec a b)
         end;
  simpl in *; try congruence; try lia.

Lemma SFltb_SFleb_trans (x y z : spec_float) :
  SFltb x y = true -> SFleb y z = true -> SFltb x z = true.
Proof.
  unfold SFltb, SFleb.
  destruct x as [sx|sx| |sx mx ex], y as [sy|sy| |sy my ey],
           z as [sz|sz| |sz mz ez];
    simpl; split_signs; split_compare.
Qed.

Lemma SFleb_false_SFltb (x y : spec_float) :
  x <> S754_nan -> y <> S754_nan -> SFleb x y = false -> SFltb y x = true.
Proof.
  unfold SFltb, SFleb.
  destruct x as [sx|sx| |sx mx ex], y as [sy|sy| |sy my ey];
    simpl; split_signs; split_compare.
Qed.

Lemma SFleb_refl (x : spec_float) : x <> S754_nan -> SFleb x x = true.
Proof.
  unfold SFleb. destruct x as [sx|sx| |sx mx ex]; simpl; split_signs;
    rewrite Z.compare_refl; change (Pos.compare_cont Eq) with Pos.compare;
    rewrite Pos.compare_refl; reflexivity.
Qed.

Lemma SFltb_SFleb (x y : spec_float) : SFltb x y = true -> SFleb x y = true.
Proof.
  unfold SFltb, SFleb. destruct (SFcompare x y) as [[]|]; congruence.
Qed.

Lemma is_nan_false (x : float) : is_nan x = false -> Prim2SF x <> S754_nan.
Proof.
  unfold is_nan. rewrite eqb_spec. unfold SFeqb. intros H E.
  rewrite E in H. discriminate H.
Qed.

Lemma leb_refl (x : float) : is_nan x = false -> (x <=? x)%float = true.
Proof.
  intros H. rewrite leb_spec. apply SFleb_refl, is_nan_false, H.
Qed.

Lemma leb_false_ltb (x y : float) :
  is_nan x = false -> is_nan y = false ->
  (x <=? y)%float = false -> (y <? x)%float = true.
Proof.
  rewrite leb_spec, ltb_spec. intros Hx Hy.
  apply SFleb_false_SFltb; apply is_nan_false; assumption.
Qed.

Lemma ltb_leb_trans (x y z : float) :
  (x <? y)%float = true -> (y <=? z)%float = true -> (x <? z)%float = true.
Proof. rewrite !ltb_spec, leb_spec. apply SFltb_SFleb_trans. Qed.

Lemma ltb_leb (x y : float) :
  (x <? y)%float = true -> (x <=? y)%float = true.
Proof. rewrite ltb_spec, leb_spec. apply SFltb_SFleb. Qed.

(* ================================================================== *)
(** ** [np.argmin] *)

Lemma argmin_scan_bound (ip : list float) (mp : float) (min_ind i : nat) :
  min_ind < i -> argmin_scan mp min_ind i ip < i + length ip.
Proof.
  revert mp min_ind i. induction ip as [|x ip IH]; intros mp min_ind i Hlt.
  - cbn. lia.
  - cbn [argmin_scan length]. destruct (negb (mp <=? x)%float).
    + destruct (is_nan x); [lia|].
      specialize (IH x i (S i)). lia.
    + specialize (IH mp min_ind (S i)). lia.
Qed.

(** On a non-empty array [np.argmin] returns a valid index. *)
Lemma np_argmin_bound (a : list float) :
  a <> [] -> exists k, np_argmin a = Ok k /\ k < length a.
Proof.
  destruct a as [|x a]; [congruence|]. intros _. unfold np_argmin.
  destruct (is_nan x).
  - exists 0. cbn. split; [reflexivity | lia].
  - eexists. split; [reflexivity|].
    pose proof (argmin_scan_bound a x (min_ind := 0) (i := 1)). cbn. lia.
Qed.

Lemma argmin_scan_least (ip pre : list float) (mp : float) (min_ind : nat) :
  Forall (fun x => is_nan x = false) (pre ++ ip) ->
  first_least pre min_ind mp ->
  exists m,
    first_least (pre ++ ip) (argmin_scan mp min_ind (length pre) ip) m.
Proof.
  revert pre mp min_ind.
  induction ip as [|x ip IH]; intros pre mp min_ind Hnan Hleast.
  - exists mp. rewrite app_nil_r. exact Hleast.
  - assert (Hx : is_nan x = false).
    { rewrite Forall_forall in Hnan. apply Hnan, in_or_app.
      right. left. reflexivity. }
    assert (Hmp : is_nan mp = false).
    { rewrite Forall_forall in Hnan. apply Hnan, in_or_app. left.
      destruct Hleast as [Hk _]. eapply nth_error_In, Hk. }
    assert (Hshift : pre ++ x :: ip = (pre ++ [x]) ++ ip)
      by (rewrite <- app_assoc; reflexivity).
    assert (Hlen : S (length pre) = length (pre ++ [x]))
      by (rewrite length_app; cbn; lia).
    destruct Hleast as [Hk Hmin].
    assert (Hin : min_ind < length pre)
      by (apply nth_error_Some; congruence).
    cbn [argmin_scan]. rewrite Hx, Hshift, Hlen.
    destruct (mp <=? x)%float eqn:Hle; cbn [negb].
    + apply IH; [rewrite <- Hshift; exact Hnan|]. split.
      * rewrite nth_error_app1 by assumption. exact Hk.
      * intros j y Hj.
        destruct (Nat.lt_ge_cases j (length pre)) as [Hlt|Hge].
        -- rewrite nth_error_app1 in Hj by assumption. apply Hmin, Hj.
        -- rewrite nth_error_app2 in Hj by assumption.
           destruct (j - length pre) as [|[|d]]; cbn in Hj;
             try discriminate. injection Hj as <-.
           split; [exact Hle | lia].
    + apply leb_false_ltb in Hle; [|assumption..].
      apply IH; [rewrite <- Hshift; exact Hnan|]. split.
      * rewrite nth_error_app2 by lia.
        rewrite Nat.sub_diag. reflexivity.
      * intros j y Hj.
        destruct (Nat.lt_ge_cases j (length pre)) as [Hlt|Hge].
        -- rewrite nth_error_app1 in Hj by assumption.
           assert (Hy : (x <? y)%float = true)
             by (eapply ltb_leb_trans; [exact Hle | apply (Hmin j y Hj)]).
           split; [apply ltb_leb, Hy | intros _; exact Hy].
        -- rewrite nth_error_app2 in Hj by assumption.
           destruct (j - length pre) as [|[|d]] eqn:Hd; cbn in Hj;
             try discriminate. injection Hj as <-.
           split; [apply leb_refl, Hx | lia].
Qed.

(** Without NaN, [np.argmin] returns the first index of a least
    element. *)
Lemma np_argmin_least (a : list float) :
  a <> [] ->
  Forall (fun x => is_nan x = false) a ->
  exists k m, np_argmin a = Ok k /\ first_least a k m.
Proof.
  destruct a as [|x a]; [congruence|]. intros _ Hnan.
  assert (Hx : is_nan x = false) by (inversion Hnan; assumption).
  unfold np_argmin. rewrite Hx.
  destruct (argmin_scan_least a (pre := [x]) (mp := x) (min_ind := 0)) as [m Hm].
  - exact Hnan.
  - split; [reflexivity|]. intros j y Hj.
    destruct j as [|[|j]]; cbn in Hj; try discriminate.
    injection Hj as <-. split; [apply leb_refl, Hx | lia].
  - eexists _, m. split; [reflexivity | exact Hm].
Qed.

(** Equal values: the first index is returned. *)
Example np_argmin_tie :
  np_argmin [0.5; 0.25; 0.25; 1]%float = Ok 1.
Proof. reflexivity. Qed.

(** A NaN counts as minimal. *)
Example np_argmin_nan :
  np_argmin [0.5; nan; 0.25]%float = Ok 1.
Proof. reflexivity. Qed.

(* ================================================================== *)
(** ** Alignment: one iteration *)

Lemma np_argmin_ok_bound (a : list float) (k : nat) :
  np_argmin a = Ok k -> k < length a.
Proof.
  intros Hk. destruct a as [|x a]; [discriminate Hk|].
  destruct (@np_argmin_bound (x :: a)) as (k' & Hk' & Hlt); [discriminate|].
  congruence.
Qed.

Lemma cut_index_bound (chunks : list chunk) (seg : speaker_turn) (k : nat) :
  cut_index chunks seg = Ok k -> k < length chunks.
Proof.
  unfold cut_index. intros Hk. apply np_argmin_ok_bound in Hk.
  rewrite length_map in Hk. exact Hk.
Qed.

Lemma cut_index_defined (chunks : list chunk) (seg : speaker_turn) :
  chunks <> [] -> exists k, cut_index chunks seg = Ok k /\ k < length chunks.
Proof.
  intros Hne. unfold cut_index.
  destruct (@np_argmin_bound (map (distance (end_ (segment seg))) chunks))
    as (k & Hk & Hlt).
  - destruct chunks; [congruence | discriminate].
  - exists k. rewrite length_map in Hlt. split; assumption.
Qed.

Lemma firstn_succ_nth_error (A : Type) (l : list A) (k : nat) (x : A) :
  nth_error l k = Some x -> firstn (S k) l = firstn k l ++ [x].
Proof.
  revert k. induction l as [|y l IH]; intros [|k] Hk; cbn in Hk;
    try discriminate.
  - injection Hk as ->. reflexivity.
  - cbn [firstn app]. f_equal. apply IH, Hk.
Qed.

(** Lines 117-118: the inner loop appends the first chunks of the
    working set, each with the turn's speaker. *)
Lemma per_chunk_loop (seg : speaker_turn) (post pre : list chunk)
    (n : nat) (acc : list pred) :
  n <= length post ->
  for_each
    (fun i acc => c <- getitem (pre ++ post) i ;;
                  Ok (acc ++ [with_speaker seg c]))
    (seq (length pre) n) acc
  = Ok (acc ++ map (with_speaker seg) (firstn n post)).
Proof.
  revert post pre acc. induction n as [|n IH]; intros post pre acc Hn.
  - cbn. rewrite app_nil_r. reflexivity.
  - destruct post as [|c post]; [cbn in Hn; lia|].
    cbn [seq for_each]. rewrite getitem_middle. cbn [bind].
    replace (pre ++ c :: post) with ((pre ++ [c]) ++ post)
      by (rewrite <- app_assoc; reflexivity).
    replace (S (length pre)) with (length (pre ++ [c]))
      by (rewrite length_app; cbn; lia).
    rewrite IH by (cbn in Hn; lia).
    cbn [firstn map]. rewrite <- app_assoc. reflexivity.
Qed.

(** One iteration on a consistent state cuts the working set after the
    index [cut_index] returns and emits the predictions of the chunks
    before the cut. *)
Lemma align_body_unfold (g : bool) (seg : speaker_turn) (st : align_state) :
  consistent st ->
  align_body g seg st
  = (k <- cut_index (transcript st) seg ;;
     Ok (consume g st [(seg, firstn (S k) (transcript st))])).
Proof.
  unfold consistent, align_body, cut_index. intros Hcons.
  rewrite Hcons, map_map.
  change (fun x : chunk => abs (end_timestamp x - end_ (segment seg)))
    with (distance (end_ (segment seg))).
  destruct (np_argmin (map (distance (end_ (segment seg))) (transcript st)))
    as [k|e] eqn:Hk; [|reflexivity].
  apply np_argmin_ok_bound in Hk. rewrite length_map in Hk.
  cbn [bind]. unfold consume, render.
  cbn [map snd fst concat flat_map]. rewrite !app_nil_r.
  rewrite Nat.add_1_r, length_firstn, Nat.min_l by lia.
  rewrite <- skipn_map.
  destruct (nth_error (transcript st) k) as [ck|] eqn:Hck;
    [|apply nth_error_None in Hck; lia].
  destruct g; unfold emitted.
  - unfold getitem. rewrite Hck.
    destruct (transcript st) as [|c0 cs] eqn:Hts; [cbn in Hk; lia|].
    cbn [nth_error bind]. unfold grouped_pred.
    rewrite (firstn_succ_nth_error _ _ Hck), rev_unit.
    rewrite <- (firstn_succ_nth_error _ _ Hck). reflexivity.
  - unfold range. rewrite Nat.sub_0_r.
    rewrite (@per_chunk_loop seg (transcript st) [] (S k) _ Hk).
    reflexivity.
Qed.

(* ================================================================== *)
(** ** Alignment: the loop and its trace *)

Lemma consume_nil (g : bool) (st : align_state) :
  consistent st -> consume g st [] = st.
Proof.
  unfold consistent, consume. destruct st as [ts es ps]. cbn.
  intros ->. rewrite app_nil_r. reflexivity.
Qed.

Lemma consume_cons (g : bool) (st : align_state)
    (grp : speaker_turn * list chunk)
    (groups : list (speaker_turn * list chunk)) :
  consume g (consume g st [grp]) groups = consume g st (grp :: groups).
Proof.
  unfold consume, render. cbn [transcript segmented_preds map concat flat_map].
  rewrite !app_nil_r, skipn_skipn, length_app, <- app_assoc.
  rewrite (Nat.add_comm (length (snd grp))). reflexivity.
Qed.

Lemma transcript_consume_single (g : bool) (st : align_state)
    (seg : speaker_turn) (k : nat) :
  k < length (transcript st) ->
  transcript (consume g st [(seg, firstn (S k) (transcript st))])
  = skipn (S k) (transcript st).
Proof.
  intros Hk. unfold consume. cbn [transcript map snd concat].
  rewrite app_nil_r, length_firstn, Nat.min_l by lia. reflexivity.
Qed.

(** The loop consumes the groups of its trace, and fails where the trace
    fails. *)
Lemma align_loop_trace (g : bool) (turns : list speaker_turn) :
  forall st : align_state,
    consistent st ->
    align_loop g turns st
    = (groups <- consumed turns (transcript st) ;; Ok (consume g st groups)).
Proof.
  induction turns as [|t turns IH]; intros st Hcons.
  - cbn. rewrite consume_nil by assumption. reflexivity.
  - cbn [align_loop consumed]. rewrite align_body_unfold by assumption.
    destruct (cut_index (transcript st) t) as [k|e] eqn:Hk;
      cbn [bind]; [|reflexivity].
    apply cut_index_bound in Hk.
    pose proof (transcript_consume_single g st t Hk) as Hts.
    set (st1 := consume g st [(t, firstn (S k) (transcript st))]) in *.
    assert (Hlen : length (end_timestamps st1) = length (transcript st1))
      by (unfold st1, consume; cbn; apply length_map).
    rewrite Hlen, Hts.
    destruct (skipn (S k) (transcript st)) as [|c rest] eqn:Hrest.
    + reflexivity.
    + cbn [length Nat.eqb]. rewrite IH by reflexivity. rewrite Hts.
      destruct (consumed turns (c :: rest)) as [groups|e]; cbn [bind].
      * unfold st1. rewrite consume_cons. reflexivity.
      * reflexivity.
Qed.

(** The function and its trace. *)
Lemma post_process_trace (g : bool) (turns : list speaker_turn)
    (chunks : list chunk) :
  post_process_segments_and_transcripts turns chunks g
  = (groups <- consumed turns chunks ;; Ok (render g groups)).
Proof.
  unfold post_process_segments_and_transcripts.
  rewrite align_loop_trace by reflexivity. cbn [align_init transcript].
  destruct (consumed turns chunks); reflexivity.
Qed.

(** The groups of a trace are non-empty and, one after the other, make
    up the front of the working set. *)
Lemma consumed_prefix (turns : list speaker_turn) :
  forall (chunks : list chunk) (groups : list (speaker_turn * list chunk)),
    consumed turns chunks = Ok groups ->
    Forall (fun grp => snd grp <> []) groups /\
    concat (map snd groups)
    = firstn (length (concat (map snd groups))) chunks.
Proof.
  induction turns as [|t turns IH]; intros chunks groups Hgroups.
  - injection Hgroups as <-. split; [constructor | reflexivity].
  - cbn [consumed] in Hgroups.
    destruct (cut_index chunks t) as [k|e] eqn:Hk; [|discriminate].
    apply cut_index_bound in Hk. cbn [bind] in Hgroups.
    assert (Hne : firstn (S k) chunks <> [])
      by (destruct chunks; [cbn in Hk; lia | discriminate]).
    assert (Hfl : length (firstn (S k) chunks) = S k)
      by (rewrite length_firstn; lia).
    pose proof (firstn_skipn (S k) chunks) as Hsplit.
    set (front := firstn (S k) chunks) in *.
    destruct (skipn (S k) chunks) as [|c rest] eqn:Hrest.
    + injection Hgroups as <-. split; [repeat constructor; exact Hne|].
      cbn [map snd concat]. rewrite app_nil_r, Hfl. reflexivity.
    + destruct (consumed turns (c :: rest)) as [groups'|e] eqn:Hrec;
        [|discriminate].
      injection Hgroups as <-. destruct (IH _ _ Hrec) as [Hall Hpre].
      split; [constructor; [exact Hne | exact Hall]|].
      cbn [map snd concat]. rewrite length_app, Hfl.
      rewrite <- Hsplit.
      rewrite firstn_app, Hfl.
      replace (S k + length (concat (map snd groups')) - S k)
        with (length (concat (map snd groups'))) by lia.
      rewrite <- Hpre.
      rewrite <- Hfl, firstn_all2 by lia. reflexivity.
Qed.

Lemma chunk_of_with_speaker (seg : speaker_turn) (cs : list chunk) :
  map chunk_of (map (with_speaker seg) cs) = cs.
Proof.
  induction cs as [|[t ts] cs IH]; [reflexivity|].
  cbn [map]. rewrite IH. reflexivity.
Qed.

(** In per-chunk mode the predictions are the chunks of the groups. *)
Lemma chunk_of_render (groups : list (speaker_turn * list chunk)) :
  map chunk_of (render false groups) = concat (map snd groups).
Proof.
  induction groups as [|[seg cs] groups IH]; [reflexivity|].
  change (render false ((seg, cs) :: groups))
    with (map (with_speaker seg) cs ++ render false groups).
  rewrite map_app, chunk_of_with_speaker, IH. reflexivity.
Qed.

(* ================================================================== *)
(** ** Alignment: the cut is the closest end *)

Lemma in_skipn (A : Type) (n : nat) (l : list A) (x : A) :
  In x (skipn n l) -> In x l.
Proof.
  intros Hin. rewrite <- (firstn_skipn n l). apply in_or_app. right.
  exact Hin.
Qed.

Lemma comparable_skipn (turns : list speaker_turn) (chunks : list chunk)
    (n : nat) :
  comparable turns chunks = true ->
  comparable turns (skipn n chunks) = true.
Proof.
  unfold comparable. rewrite !forallb_forall. intros Hall t Ht.
  specialize (Hall t Ht). rewrite forallb_forall in *.
  intros c Hc. eapply Hall, in_skipn, Hc.
Qed.

(** Line 101 computes the absolute difference of the specification:
    the array of line 93 holds the effective ends. *)
Lemma distance_absolute_difference (target : float) (c : chunk) :
  distance target c = absolute_difference target c.
Proof.
  unfold distance, absolute_difference, end_timestamp, effective_end.
  destruct (timestamp c) as [s [e|]]; reflexivity.
Qed.

(** When no absolute difference is a NaN, the cut of a non-empty working
    set is at the closest index. *)
Lemma cut_index_closest (chunks : list chunk) (seg : speaker_turn) :
  chunks <> [] ->
  forallb
    (fun c => negb (is_nan (absolute_difference (end_ (segment seg)) c)))
    chunks
  = true ->
  exists k,
    cut_index chunks seg = Ok k /\
    closest_index chunks (end_ (segment seg)) k.
Proof.
  intros Hne Hnan. unfold cut_index.
  rewrite (map_ext _ _ (distance_absolute_difference (end_ (segment seg)))).
  set (d := absolute_difference (end_ (segment seg))) in *.
  destruct (@np_argmin_least (map d chunks)) as (k & m & Hk & Hnth & Hmin).
  - destruct chunks; [congruence | discriminate].
  - rewrite Forall_map, Forall_forall. rewrite forallb_forall in Hnan.
    intros c Hc. apply negb_true_iff, Hnan, Hc.
  - exists k. split; [exact Hk|].
    rewrite nth_error_map in Hnth.
    destruct (nth_error chunks k) as [ck|] eqn:Hck; [|discriminate].
    injection Hnth as <-. exists ck. split; [exact Hck|].
    intros j cj Hj. apply (Hmin j (d cj)).
    rewrite nth_error_map, Hj. reflexivity.
Qed.

(** The trace of the loop is the attribution of the specification. *)
Lemma consumed_attributes (turns : list speaker_turn) :
  forall chunks : list chunk,
    chunks <> [] ->
    comparable turns chunks = true ->
    exists groups,
      consumed turns chunks = Ok groups /\ attributes turns chunks groups.
Proof.
  induction turns as [|t turns IH]; intros chunks Hne Hcmp.
  - exists []. split; [reflexivity | constructor].
  - cbn [comparable forallb] in Hcmp. apply andb_true_iff in Hcmp.
    destruct Hcmp as [Ht Hturns].
    destruct (cut_index_closest t Hne Ht) as (k & Hk & Hclosest).
    cbn [consumed]. rewrite Hk. cbn [bind].
    destruct (skipn (S k) chunks) as [|c rest] eqn:Hrest.
    + eexists. split; [reflexivity|].
      apply attributes_exhausted; assumption.
    + destruct (IH (c :: rest)) as (groups & Hgroups & Hattr).
      * discriminate.
      * rewrite <- Hrest. apply comparable_skipn, Hturns.
      * rewrite Hgroups. eexists. split; [reflexivity|].
        apply attributes_next; [assumption | | rewrite Hrest; exact Hattr].
        rewrite Hrest. discriminate.
Qed.

(* ================================================================== *)
(** ** Properties of alignment *)

Lemma render_per_chunk_output (groups : list (speaker_turn * list chunk)) :
  per_chunk_output groups (render false groups).
Proof.
  unfold per_chunk_output.
  induction groups as [|[seg cs] groups IH]; [constructor|].
  change (render false ((seg, cs) :: groups))
    with (map (with_speaker seg) cs ++ render false groups).
  cbn [flat_map fst snd]. apply Forall2_app; [|exact IH].
  clear IH. induction cs as [|c cs IHcs]; cbn [map]; constructor.
  - repeat split.
  - exact IHcs.
Qed.

Lemma render_grouped_output (groups : list (speaker_turn * list chunk)) :
  grouped_output groups (render true groups).
Proof.
  unfold grouped_output.
  induction groups as [|grp groups IH]; [constructor|].
  change (render true (grp :: groups))
    with (grouped_pred (fst grp) (snd grp) :: render true groups).
  constructor; [split; reflexivity | exact IH].
Qed.

(** C1.  For a non-empty transcript whose absolute differences to the
    turns' ends are numbers (no NaN), the call returns in both modes and
    its output is that of the attribution of the specification: the
    turns are taken in order, and each gets exactly the chunks from the
    front of the remaining working set up to and including the index
    whose effective end time (the end, or the very large number for a
    null end) has minimal absolute difference to the turn's end, the
    lowest index among equidistant ones.  The per-chunk output has one
    prediction per attributed chunk, with the turn's speaker and the
    chunk's text and timestamp; the grouped output has one segment per
    turn, with the turn's speaker and the joined texts.  In particular,
    the turns [(0,1.5,A); (1.5,3.0,B)] and chunks with end times 1.0,
    1.6 and 3.0 give the first two chunks to A and the third to B. *)
Theorem align_attributes_up_to_closest_end :
  (forall (turns : list speaker_turn) (chunks : list chunk),
      chunks <> [] ->
      comparable turns chunks = true ->
      exists groups per_chunk grouped,
        attributes turns chunks groups /\
        post_process_segments_and_transcripts turns chunks false
        = Ok per_chunk /\
        per_chunk_output groups per_chunk /\
        post_process_segments_and_transcripts turns chunks true
        = Ok grouped /\
        grouped_output groups grouped)
  /\ post_process_segments_and_transcripts
       Examples.turns Examples.chunks false
     = Ok [{| pred_speaker := "A"; pred_text := "hi";
              pred_timestamp := (0%float, Some 1%float) |};
           {| pred_speaker := "A"; pred_text := " there";
              pred_timestamp :=
                (1%float, Some 0x1.999999999999ap+0%float) |};
           {| pred_speaker := "B"; pred_text := " bob";
              pred_timestamp :=
                (0x1.999999999999ap+0%float, Some 3%float) |}].
Proof.
  split.
  - intros turns chunks Hne Hcmp.
    destruct (consumed_attributes turns Hne Hcmp) as (groups & Hg & Hattr).
    exists groups, (render false groups), (render true groups).
    rewrite !post_process_trace, Hg.
    split; [exact Hattr|]. split; [reflexivity|].
    split; [apply render_per_chunk_output|]. split; [reflexivity|].
    apply render_grouped_output.
  - vm_compute. reflexivity.
Qed.

Lemma align_attributes_up_to_closest_end_witness :
  exists groups per_chunk grouped,
    attributes Examples.turns Examples.chunks groups /\
    post_process_segments_and_transcripts
      Examples.turns Examples.chunks false
    = Ok per_chunk /\
    per_chunk_output groups per_chunk /\
    post_process_segments_and_transcripts
      Examples.turns Examples.chunks true
    = Ok grouped /\
    grouped_output groups grouped.
Proof.
  apply (proj1 align_attributes_up_to_closest_end
           Examples.turns Examples.chunks).
  - discriminate.
  - vm_compute. reflexivity.
Defined.

(** A first chunk without end time is compared as the very large number:
    it is farther from the turn's end 0.5 than the second chunk, which
    ends at 2, so the cut is after the second chunk. *)
Example align_open_end_is_far :
  post_process_segments_and_transcripts
    [Examples.turn 0 0.5 "A"]
    [{| text := "a"; timestamp := (0%float, None) |}; Examples.chk "b" 1 2]
    false
  = Ok [{| pred_speaker := "A"; pred_text := "a";
           pred_timestamp := (0%float, None) |};
        {| pred_speaker := "A"; pred_text := "b";
           pred_timestamp := (1%float, Some 2%float) |}].
Proof. vm_compute. reflexivity. Qed.

Lemma render_grouped (groups : list (speaker_turn * list chunk)) :
  render true groups
  = map (fun grp => grouped_pred (fst grp) (snd grp)) groups.
Proof.
  induction groups as [|grp groups IH]; [reflexivity|].
  change (render true (grp :: groups))
    with (grouped_pred (fst grp) (snd grp) :: render true groups).
  rewrite IH. reflexivity.
Qed.

(** Two chunks whose ends 1.0 and 2.0 are equally far from the turn's end
    1.5: the cut is after the first one. *)
Example align_tie_break :
  post_process_segments_and_transcripts
    [Examples.turn 0 1.5 "A"]
    [Examples.chk "a" 0 1; Examples.chk "b" 1 2] false
  = Ok [with_speaker (Examples.turn 0 1.5 "A") (Examples.chk "a" 0 1)].
Proof. vm_compute. reflexivity. Qed.

(** A last chunk without end time is compared as [sys.float_info.max]
    and keeps its [None] in the output. *)
Example align_open_ended_chunk :
  post_process_segments_and_transcripts
    Examples.turns
    [Examples.hi; {| text := " there"; timestamp := (1%float, None) |}]
    false
  = Ok [with_speaker (Examples.turn 0 1.5 "A") Examples.hi;
        with_speaker (Examples.turn 1.5 3 "B")
          {| text := " there"; timestamp := (1%float, None) |}].
Proof. vm_compute. reflexivity. Qed.




(** C3, as the code has it.  Whatever [group_by_speaker] is, aligning at
    least one turn with an empty transcript fails ([np.argmin] raises
    [ValueError] on the empty array), and aligning an empty list of turns
    does not fail: it returns the empty list, whatever the chunks. *)
Theorem align_empty_inputs (g : bool) :
  (forall (t : speaker_turn) (turns : list speaker_turn),
      post_process_segments_and_transcripts (t :: turns) [] g
      = Raise ValueError)
  /\ (forall chunks : list chunk,
         post_process_segments_and_transcripts [] chunks g = Ok []).
Proof. split; intros; reflexivity. Qed.

(** C3, as stated, fails: with no turns the call returns the empty list
    instead of failing, for a non-empty and for an empty transcript. *)
Lemma align_empty_turns_does_not_fail :
  post_process_segments_and_transcripts [] Examples.chunks false = Ok []
  /\ post_process_segments_and_transcripts [] [] false = Ok [].
Proof. split; reflexivity. Qed.

(** Once the working set is empty the loop has stopped: further turns
    change nothing. *)
Lemma align_loop_exhausted (g : bool) (rest pre : list speaker_turn) :
  forall st0 st : align_state,
    end_timestamps st0 <> [] ->
    align_loop g pre st0 = Ok st ->
    end_timestamps st = [] ->
    align_loop g (pre ++ rest) st0 = Ok st.
Proof.
  induction pre as [|t pre IH]; intros st0 st Hne Hloop Hempty.
  - injection Hloop as <-. congruence.
  - cbn [app align_loop] in *.
    destruct (align_body g t st0) as [st1|e]; [|discriminate].
    cbn [bind] in *.
    destruct (length (end_timestamps st1) =? 0) eqn:Hlen; [exact Hloop|].
    apply IH; [|assumption..].
    intros Hnil. rewrite Hnil in Hlen. discriminate Hlen.
Qed.

(** The per-chunk predictions of a loop that started on the whole
    transcript are its first chunks, in order. *)
Lemma align_loop_per_chunk (turns : list speaker_turn) (chunks : list chunk)
    (st : align_state) :
  align_loop false turns (align_init chunks) = Ok st ->
  exists n,
    transcript st = skipn n chunks /\
    end_timestamps st = map end_timestamp (skipn n chunks) /\
    map chunk_of (segmented_preds st) = firstn n chunks.
Proof.
  rewrite align_loop_trace by reflexivity. cbn [align_init transcript].
  destruct (consumed turns chunks) as [groups|e] eqn:Hg; [|discriminate].
  cbn [bind]. intros [= <-].
  exists (length (concat (map snd groups))).
  unfold consume. cbn [transcript end_timestamps segmented_preds align_init].
  repeat split. cbn [app]. rewrite chunk_of_render.
  apply (consumed_prefix _ _ Hg).
Qed.

(** C7.  In per-chunk mode, if the working set is empty after the turns
    [pre] (all of them processed, or the loop left before), then with any
    further turns [rest] the call does not fail and returns what it had
    after [pre]: the turns of [rest] add nothing, and there are as many
    predictions as chunks in the transcript. *)
Theorem align_early_exit (pre rest : list speaker_turn)
    (chunks : list chunk) (st : align_state) :
  chunks <> [] ->
  align_loop false pre (align_init chunks) = Ok st ->
  end_timestamps st = [] ->
  post_process_segments_and_transcripts (pre ++ rest) chunks false
  = Ok (segmented_preds st)
  /\ length (segmented_preds st) = length chunks.
Proof.
  intros Hne Hloop Hempty. split.
  - unfold post_process_segments_and_transcripts.
    rewrite (@align_loop_exhausted false rest pre _ st); try assumption.
    + reflexivity.
    + destruct chunks; [congruence | discriminate].
  - destruct (align_loop_per_chunk _ _ Hloop) as (n & _ & Hend & Hout).
    rewrite Hempty in Hend. symmetry in Hend.
    apply map_eq_nil, skipn_all_iff in Hend.
    rewrite <- (length_map chunk_of), Hout, firstn_all2 by exact Hend.
    reflexivity.
Qed.

Lemma align_early_exit_witness :
  post_process_segments_and_transcripts
    ([Examples.turn 0 3 "A"] ++ [Examples.turn 3 4 "B"; Examples.turn 4 5 "C"])
    Examples.chunks false
  = Ok [with_speaker (Examples.turn 0 3 "A") Examples.hi;
        with_speaker (Examples.turn 0 3 "A") Examples.there;
        with_speaker (Examples.turn 0 3 "A") Examples.bob]
  /\ length [with_speaker (Examples.turn 0 3 "A") Examples.hi;
             with_speaker (Examples.turn 0 3 "A") Examples.there;
             with_speaker (Examples.turn 0 3 "A") Examples.bob]
     = length Examples.chunks.
Proof.
  apply (@align_early_exit [Examples.turn 0 3 "A"]
           [Examples.turn 3 4 "B"; Examples.turn 4 5 "C"] Examples.chunks
           {| transcript := []; end_timestamps := [];
              segmented_preds :=
                [with_speaker (Examples.turn 0 3 "A") Examples.hi;
                 with_speaker (Examples.turn 0 3 "A") Examples.there;
                 with_speaker (Examples.turn 0 3 "A") Examples.bob] |}).
  - discriminate.
  - vm_compute. reflexivity.
  - reflexivity.
Defined.

(** C8.  An iteration that does not fail leaves a strictly shorter
    working set, obtained by dropping chunks from the front of the
    previous one; and the per-chunk output of a call is, in order, the
    first chunks of the transcript, each input position at most once: so
    when the input chunks are pairwise distinct no chunk occurs twice in
    the output. *)
Theorem align_consumes_monotonically :
  (forall (g : bool) (seg : speaker_turn) (st st' : align_state),
      align_body g seg st = Ok st' ->
      length (end_timestamps st') < length (end_timestamps st) /\
      exists n,
        transcript st' = skipn n (transcript st) /\
        end_timestamps st' = skipn n (end_timestamps st))
  /\ (forall (turns : list speaker_turn) (chunks : list chunk)
             (out : list pred),
         post_process_segments_and_transcripts turns chunks false = Ok out ->
         length out <= length chunks /\
         map chunk_of out = firstn (length out) chunks /\
         (NoDup chunks -> NoDup (map chunk_of out))).
Proof.
  split.
  - intros g seg st st'. unfold align_body.
    destruct (np_argmin _) as [k|e] eqn:Hk; [|discriminate].
    apply np_argmin_ok_bound in Hk. rewrite length_map in Hk.
    cbn [bind].
    match goal with
    | |- bind ?m _ = _ -> _ => destruct m as [preds|e]; [|discriminate]
    end.
    cbn [bind]. intros [= <-].
    cbn [transcript end_timestamps]. split.
    + rewrite length_skipn. lia.
    + exists (k + 1). split; reflexivity.
  - intros turns chunks out.
    unfold post_process_segments_and_transcripts.
    destruct (align_loop false turns (align_init chunks)) as [st|e] eqn:Hloop;
      [|discriminate].
    cbn [bind]. intros [= <-].
    destruct (align_loop_per_chunk _ _ Hloop) as (n & _ & _ & Hout).
    assert (Hlen : length (segmented_preds st) = length (firstn n chunks))
      by (rewrite <- Hout; symmetry; apply length_map).
    rewrite length_firstn in Hlen.
    assert (Hfront : map chunk_of (segmented_preds st)
                     = firstn (length (segmented_preds st)) chunks).
    { rewrite Hout, Hlen.
      destruct (Nat.le_ge_cases n (length chunks)) as [Hle|Hge].
      - rewrite Nat.min_l by assumption. reflexivity.
      - rewrite Nat.min_r, firstn_all, firstn_all2 by assumption.
        reflexivity. }
    split; [lia|]. split; [exact Hfront|].
    intros Hnodup. rewrite Hfront.
    rewrite <- (firstn_skipn (length (segmented_preds st)) chunks) in Hnodup.
    apply NoDup_app_remove_r in Hnodup. exact Hnodup.
Qed.

Lemma align_consumes_monotonically_witness :
  (length (@nil float) < length (map end_timestamp [Examples.bob]) /\
   exists n,
     @nil chunk = skipn n [Examples.bob] /\
     @nil float = skipn n (map end_timestamp [Examples.bob]))
  /\ (length [with_speaker (Examples.turn 0 1.5 "A") Examples.hi;
              with_speaker (Examples.turn 0 1.5 "A") Examples.there;
              with_speaker (Examples.turn 1.5 3 "B") Examples.bob]
      <= length Examples.chunks /\
      map chunk_of
        [with_speaker (Examples.turn 0 1.5 "A") Examples.hi;
         with_speaker (Examples.turn 0 1.5 "A") Examples.there;
         with_speaker (Examples.turn 1.5 3 "B") Examples.bob]
      = firstn 3 Examples.chunks /\
      (NoDup Examples.chunks ->
       NoDup (map chunk_of
                [with_speaker (Examples.turn 0 1.5 "A") Examples.hi;
                 with_speaker (Examples.turn 0 1.5 "A") Examples.there;
                 with_speaker (Examples.turn 1.5 3 "B") Examples.bob]))).
Proof.
  split.
  - apply (proj1 align_consumes_monotonically false
             (Examples.turn 1.5 3 "B")
             {| transcript := [Examples.bob];
                end_timestamps := map end_timestamp [Examples.bob];
                segmented_preds := [] |}
             {| transcript := [];
                end_timestamps := [];
                segmented_preds :=
                  [with_speaker (Examples.turn 1.5 3 "B") Examples.bob] |}).
    vm_compute. reflexivity.
  - apply (proj2 align_consumes_monotonically
             Examples.turns Examples.chunks).
    vm_compute. reflexivity.
Defined.

(* ================================================================== *)
(** ** Further properties of merging *)

(** X1.  Raw segments that all carry one speaker label merge to exactly
    one turn, from the start of the first segment to the end of the last
    one. *)
Theorem merge_single_speaker (s : raw_segment) (rest : list raw_segment) :
  Forall (fun x => label x = label s) rest ->
  diarize_audio (s :: rest)
  = Ok [{| segment := {| start := start (raw_interval s);
                         end_ := end_ (raw_interval (last rest s)) |};
           speaker := label s |}].
Proof.
  intros Hsame. rewrite diarize_audio_unfold.
  rewrite <- (app_nil_r rest) at 1.
  rewrite merge_from_same_label by assumption. reflexivity.
Qed.

Lemma merge_single_speaker_witness :
  diarize_audio
    (Examples.seg 0 1 "A" :: [Examples.seg 1 1.5 "A"; Examples.seg 2 4 "A"])
  = Ok [{| segment := {| start := 0%float; end_ := 4%float |};
           speaker := "A" |}].
Proof.
  apply (@merge_single_speaker (Examples.seg 0 1 "A")
           [Examples.seg 1 1.5 "A"; Examples.seg 2 4 "A"]).
  repeat constructor.
Defined.

Lemma merge_from_speakers (rest : list raw_segment)
    (prev cur : raw_segment) :
  label cur = label prev ->
  map speaker (merge_from prev cur rest)
  = dedup_adjacent (label cur :: map label rest).
Proof.
  revert prev cur. induction rest as [|s rest IH]; intros prev cur Hcur.
  - cbn. rewrite Hcur. reflexivity.
  - cbn [merge_from map].
    change (dedup_adjacent (label cur :: label s :: map label rest))
      with (if (label cur =? label s)%string
            then dedup_adjacent (label s :: map label rest)
            else label cur :: dedup_adjacent (label s :: map label rest)).
    rewrite Hcur, (String.eqb_sym (label prev) (label s)).
    destruct (label s =? label prev)%string eqn:E.
    + apply String.eqb_eq in E. apply IH, E.
    + cbn [map]. rewrite (IH s s) by reflexivity. reflexivity.
Qed.

(** X2.  The speakers of the merged turns are, in order, the labels of
    the raw segments with consecutive repetitions removed. *)
Theorem merge_speakers_dedup (s : raw_segment) (rest : list raw_segment) :
  exists turns,
    diarize_audio (s :: rest) = Ok turns /\
    map speaker turns = dedup_adjacent (map label (s :: rest)).
Proof.
  exists (merge_from s s rest). split.
  - apply diarize_audio_unfold.
  - apply merge_from_speakers. reflexivity.
Qed.

Lemma remerge_contiguous (name : string) (tl : list speaker_turn) :
  forall t : speaker_turn,
    contiguous (t :: tl) ->
    merge_from (turn_as_raw name t) (turn_as_raw name t)
      (map (turn_as_raw name) tl)
    = t :: tl.
Proof.
  induction tl as [|b tl IH]; intros t Hcont.
  - destruct t as [[st en] sp]. reflexivity.
  - destruct Hcont as (Hend & Hsp & Hrest).
    cbn [map merge_from]. cbn [turn_as_raw label] in *.
    apply not_eq_sym, String.eqb_neq in Hsp. rewrite Hsp.
    rewrite (IH b Hrest). f_equal.
    destruct t as [[st en] sp]. unfold closed_turn. cbn in *.
    rewrite Hend. reflexivity.
Qed.

(** X3.  Merging is idempotent: the turns it returns, read back as raw
    segments, merge to themselves. *)
Theorem merge_idempotent (segments : list raw_segment)
    (turns : list speaker_turn) (name : string) :
  diarize_audio segments = Ok turns ->
  diarize_audio (map (turn_as_raw name) turns) = Ok turns.
Proof.
  destruct segments as [|s rest]; [discriminate|].
  rewrite diarize_audio_unfold. intros [= <-].
  pose proof (merge_from_contiguous rest s s) as Hcont.
  destruct (merge_from_head rest s s) as (t & tl & Heq & _).
  rewrite Heq in *. cbn [map]. rewrite diarize_audio_unfold.
  rewrite remerge_contiguous by assumption. reflexivity.
Qed.

Lemma merge_idempotent_witness :
  diarize_audio (map (turn_as_raw "_") Examples.merged_turns)
  = Ok Examples.merged_turns.
Proof.
  apply (@merge_idempotent Examples.raw_segments).
  vm_compute. reflexivity.
Defined.

Lemma merge_from_reads (rest rest' : list raw_segment) :
  forall prev prev' cur cur' : raw_segment,
    start_and_label prev = start_and_label prev' ->
    map start_and_label rest = map start_and_label rest' ->
    end_ (raw_interval (last rest cur))
    = end_ (raw_interval (last rest' cur')) ->
    merge_from prev cur rest = merge_from prev' cur' rest'.
Proof.
  revert rest'. induction rest as [|s rest IH];
    intros [|s' rest'] prev prev' cur cur' Hprev Hmap Hlast;
    try discriminate Hmap.
  - cbn in *. unfold last_turn. injection Hprev as -> ->.
    rewrite Hlast. reflexivity.
  - cbn [map] in Hmap. injection Hmap as Hs1 Hs2 Hmap.
    rewrite !last_cons in Hlast. cbn [merge_from].
    pose proof Hprev as Hp. unfold start_and_label in Hp.
    injection Hp as Hp1 Hp2.
    rewrite Hs2, Hp2. destruct (label s' =? label prev')%string.
    + apply IH; assumption.
    + unfold closed_turn. rewrite Hp1, Hp2, Hs1. f_equal.
      apply IH; try assumption.
      unfold start_and_label. rewrite Hs1, Hs2. reflexivity.
Qed.

(** X4.  Merging reads only the start and the label of each raw segment
    and the end of the last one: two lists that agree on these merge to
    the same turns, whatever their tracks and their other ends are. *)
Theorem merge_reads_starts_labels_last_end
    (s s' : raw_segment) (rest rest' : list raw_segment) :
  map start_and_label (s :: rest) = map start_and_label (s' :: rest') ->
  end_ (raw_interval (last rest s)) = end_ (raw_interval (last rest' s')) ->
  diarize_audio (s :: rest) = diarize_audio (s' :: rest').
Proof.
  intros Hmap Hlast. cbn [map] in Hmap. injection Hmap as Hs1 Hs2 Hmap.
  rewrite !diarize_audio_unfold. f_equal.
  apply merge_from_reads; try assumption.
  unfold start_and_label. rewrite Hs1, Hs2. reflexivity.
Qed.

Lemma merge_reads_starts_labels_last_end_witness :
  diarize_audio
    (Examples.seg 0 1 "A" :: [Examples.seg 1 1.5 "A"; Examples.seg 1.5 2 "B"])
  = diarize_audio
      ({| raw_interval := {| start := 0%float; end_ := 0.5%float |};
          track := "t0"; label := "A" |}
       :: [{| raw_interval := {| start := 1%float; end_ := 9%float |};
              track := "t1"; label := "A" |};
           {| raw_interval := {| start := 1.5%float; end_ := 2%float |};
              track := "t2"; label := "B" |}]).
Proof.
  apply merge_reads_starts_labels_last_end; reflexivity.
Defined.

(** X14.  The merged turns tile the span of the raw segments: the first
    turn starts at the start of the first segment, the last turn ends at
    the end of the last segment, and in between each turn ends where the
    next one starts, whether or not the raw segments left gaps or
    overlapped. *)
Theorem merge_turns_tile_span (s : raw_segment) (rest : list raw_segment) :
  exists first middle final,
    diarize_audio (s :: rest) = Ok (first :: middle) /\
    diarize_audio (s :: rest) = Ok (removelast (first :: middle) ++ [final]) /\
    start (segment first) = start (raw_interval s) /\
    end_ (segment final) = end_ (raw_interval (last rest s)) /\
    contiguous (first :: middle).
Proof.
  destruct (merge_from_head rest s s) as (t & tl & Hhead & Hstart & _).
  destruct (merge_from_last rest s s) as (turns & prev' & Hlast).
  pose proof (merge_from_contiguous rest s s) as Hcont.
  exists t, tl, (last_turn prev' (last rest s)).
  rewrite diarize_audio_unfold. rewrite Hhead in Hcont.
  split; [rewrite Hhead; reflexivity|]. split; [|split; [|split]].
  - rewrite <- Hhead, Hlast, removelast_last. reflexivity.
  - exact Hstart.
  - reflexivity.
  - exact Hcont.
Qed.

(* ================================================================== *)
(** ** Further properties of alignment *)

Lemma consumed_defined (turns : list speaker_turn) :
  forall chunks : list chunk,
    chunks <> [] -> exists groups, consumed turns chunks = Ok groups.
Proof.
  induction turns as [|t turns IH]; intros chunks Hne.
  - exists []. reflexivity.
  - destruct (cut_index_defined t Hne) as (k & Hk & _).
    cbn [consumed]. rewrite Hk. cbn [bind].
    destruct (skipn (S k) chunks) as [|c rest] eqn:Hrest.
    + eexists. reflexivity.
    + destruct (IH (c :: rest)) as (groups & Hg); [discriminate|].
      rewrite Hg. eexists. reflexivity.
Qed.

(** With a non-empty transcript the alignment returns. *)
Lemma post_process_defined (g : bool) (turns : list speaker_turn)
    (chunks : list chunk) :
  chunks <> [] ->
  exists out, post_process_segments_and_transcripts turns chunks g = Ok out.
Proof.
  intros Hne. rewrite post_process_trace.
  destruct (consumed_defined turns Hne) as (groups & ->).
  eexists. reflexivity.
Qed.

(** The per-chunk output is a front of the transcript. *)
Lemma post_process_per_chunk_front (turns : list speaker_turn)
    (chunks : list chunk) (out : list pred) :
  post_process_segments_and_transcripts turns chunks false = Ok out ->
  length out <= length chunks /\
  map chunk_of out = firstn (length out) chunks.
Proof.
  rewrite post_process_trace.
  destruct (consumed turns chunks) as [groups|e] eqn:Hg; [|discriminate].
  cbn [bind]. intros [= <-].
  destruct (consumed_prefix _ _ Hg) as [_ Hpre].
  assert (Hlen : length (render false groups)
                 = length (concat (map snd groups)))
    by (rewrite <- (length_map chunk_of), chunk_of_render; reflexivity).
  rewrite chunk_of_render, Hlen. split; [|exact Hpre].
  rewrite Hpre at 1. rewrite length_firstn. lia.
Qed.

(** X5.  The alignment fails in one case only: at least one turn and no
    chunk, with the [ValueError] of [np.argmin].  With a non-empty
    transcript no index is ever out of range, in either mode. *)
Theorem align_fails_only_without_chunks (g : bool)
    (turns : list speaker_turn) (chunks : list chunk) :
  match post_process_segments_and_transcripts turns chunks g with
  | Ok _ => turns = [] \/ chunks <> []
  | Raise e => e = ValueError /\ turns <> [] /\ chunks = []
  end.
Proof.
  destruct chunks as [|c chunks].
  - destruct turns as [|t turns]; cbn.
    + left. reflexivity.
    + repeat split. discriminate.
  - destruct (@post_process_defined g turns (c :: chunks)) as (out & ->);
      [discriminate|].
    right. discriminate.
Qed.

Lemma align_body_reads (g : bool) (seg seg' : speaker_turn)
    (st : align_state) :
  end_and_speaker seg = end_and_speaker seg' ->
  align_body g seg st = align_body g seg' st.
Proof.
  destruct seg as [[s e] sp], seg' as [[s' e'] sp'].
  unfold end_and_speaker. cbn. intros [= -> ->]. reflexivity.
Qed.

(** X6.  The alignment reads only the end and the speaker of each turn:
    two lists of turns that agree on these give the same result, whatever
    the starts of the turns are. *)
Theorem align_reads_ends_and_speakers (g : bool)
    (turns turns' : list speaker_turn) (chunks : list chunk) :
  map end_and_speaker turns = map end_and_speaker turns' ->
  post_process_segments_and_transcripts turns chunks g
  = post_process_segments_and_transcripts turns' chunks g.
Proof.
  intros Hmap. unfold post_process_segments_and_transcripts. f_equal.
  generalize (align_init chunks) as st. revert turns' Hmap.
  induction turns as [|t turns IH]; intros [|t' turns'] Hmap st;
    try discriminate Hmap; [reflexivity|].
  cbn [map] in Hmap.
  assert (Ht : end_and_speaker t = end_and_speaker t')
    by (injection Hmap as H1 H2 _; unfold end_and_speaker;
        rewrite H1, H2; reflexivity).
  assert (Htl : map end_and_speaker turns = map end_and_speaker turns')
    by (injection Hmap as _ _ H; exact H).
  cbn [align_loop]. rewrite (align_body_reads g st Ht).
  destruct (align_body g t' st) as [st1|e]; [|reflexivity].
  cbn [bind]. destruct (length (end_timestamps st1) =? 0); [reflexivity|].
  apply IH, Htl.
Qed.

Lemma align_reads_ends_and_speakers_witness :
  post_process_segments_and_transcripts Examples.turns Examples.chunks true
  = post_process_segments_and_transcripts
      [Examples.turn 1 1.5 "A"; Examples.turn 0.5 3 "B"]
      Examples.chunks true.
Proof.
  apply align_reads_ends_and_speakers. reflexivity.
Defined.

Lemma consumed_counts (turns : list speaker_turn) :
  forall (chunks : list chunk) (groups : list (speaker_turn * list chunk)),
    chunks <> [] ->
    consumed turns chunks = Ok groups ->
    length groups <= length turns /\
    (turns <> [] -> groups <> []) /\
    (length groups < length turns -> concat (map snd groups) = chunks) /\
    Nat.min (length turns) (length chunks)
    <= length (concat (map snd groups)).
Proof.
  induction turns as [|t turns IH]; intros chunks groups Hne Hgroups.
  - injection Hgroups as <-. cbn. repeat split; try lia. congruence.
  - cbn [consumed] in Hgroups.
    destruct (cut_index chunks t) as [k|e] eqn:Hk; [|discriminate].
    apply cut_index_bound in Hk. cbn [bind] in Hgroups.
    pose proof (firstn_skipn (S k) chunks) as Hsplit.
    assert (Hfl : length (firstn (S k) chunks) = S k)
      by (rewrite length_firstn; lia).
    pose proof (length_skipn (S k) chunks) as Hsl.
    set (front := firstn (S k) chunks) in *.
    destruct (skipn (S k) chunks) as [|c rest] eqn:Hrest.
    + injection Hgroups as <-. cbn [length map snd concat].
      rewrite !app_nil_r in *. cbn [length] in Hsl.
      repeat split; try lia; try discriminate.
      intros _. exact Hsplit.
    + destruct (consumed turns (c :: rest)) as [groups'|e] eqn:Hrec;
        [|discriminate].
      injection Hgroups as <-.
      destruct (IH (c :: rest) groups') as (Hle & _ & Hall & Hmin);
        [discriminate | exact Hrec |].
      cbn [length map snd concat]. rewrite length_app, Hfl.
      repeat split; try lia; try discriminate.
      intros Hlt. rewrite Hall by lia. exact Hsplit.
Qed.

(** X7.  In per-chunk mode every turn that is processed takes at least
    one chunk: the output has at least as many predictions as the smaller
    of the number of turns and the number of chunks, and with at least
    as many turns as chunks every chunk of the transcript is in the
    output, in order. *)
Theorem align_covers_by_count (turns : list speaker_turn)
    (chunks : list chunk) (out : list pred) :
  chunks <> [] ->
  post_process_segments_and_transcripts turns chunks false = Ok out ->
  Nat.min (length turns) (length chunks) <= length out /\
  (length chunks <= length turns -> map chunk_of out = chunks).
Proof.
  intros Hne. rewrite post_process_trace.
  destruct (consumed turns chunks) as [groups|e] eqn:Hg; [|discriminate].
  cbn [bind]. intros [= <-].
  destruct (consumed_counts _ Hne Hg) as (_ & _ & _ & Hmin).
  destruct (consumed_prefix _ _ Hg) as [_ Hpre].
  rewrite <- (length_map chunk_of), chunk_of_render.
  split; [exact Hmin|].
  intros Hle. rewrite Hpre. apply firstn_all2. lia.
Qed.

Lemma align_covers_by_count_witness :
  Nat.min 3 (length Examples.chunks)
  <= length
       [with_speaker (Examples.turn 0 1 "A") Examples.hi;
        with_speaker (Examples.turn 1 1.5 "B") Examples.there;
        with_speaker (Examples.turn 1.5 2 "C") Examples.bob]
  /\ (length Examples.chunks <= 3 ->
      map chunk_of
        [with_speaker (Examples.turn 0 1 "A") Examples.hi;
         with_speaker (Examples.turn 1 1.5 "B") Examples.there;
         with_speaker (Examples.turn 1.5 2 "C") Examples.bob]
      = Examples.chunks).
Proof.
  apply (@align_covers_by_count
           [Examples.turn 0 1 "A"; Examples.turn 1 1.5 "B";
            Examples.turn 1.5 2 "C"] Examples.chunks).
  - discriminate.
  - vm_compute. reflexivity.
Defined.

Lemma append_empty_r (s : string) : (s ++ "")%string = s.
Proof. induction s as [|a s IH]; cbn; [|rewrite IH]; reflexivity. Qed.

Lemma append_assoc (s1 s2 s3 : string) :
  ((s1 ++ s2) ++ s3)%string = (s1 ++ (s2 ++ s3))%string.
Proof. induction s1 as [|a s1 IH]; cbn; [|rewrite IH]; reflexivity. Qed.

Lemma join_cons (x : string) (xs : list string) :
  String.concat "" (x :: xs) = (x ++ String.concat "" xs)%string.
Proof.
  destruct xs as [|y xs]; cbn [String.concat].
  - symmetry. apply append_empty_r.
  - reflexivity.
Qed.

Lemma join_app (l1 l2 : list string) :
  String.concat "" (l1 ++ l2)
  = (String.concat "" l1 ++ String.concat "" l2)%string.
Proof.
  induction l1 as [|x l1 IH]; [reflexivity|].
  change ((x :: l1) ++ l2) with (x :: (l1 ++ l2)).
  rewrite !join_cons, IH, append_assoc. reflexivity.
Qed.

Lemma pred_text_with_speaker (seg : speaker_turn) (cs : list chunk) :
  map pred_text (map (with_speaker seg) cs) = map text cs.
Proof. rewrite map_map. reflexivity. Qed.

(** The joined text of the predictions of a trace, in either mode. *)
Lemma join_render (g : bool) (groups : list (speaker_turn * list chunk)) :
  String.concat "" (map pred_text (render g groups))
  = String.concat "" (map text (concat (map snd groups))).
Proof.
  induction groups as [|[seg cs] groups IH]; [reflexivity|].
  cbn [map snd concat]. rewrite map_app, join_app, <- IH.
  destruct g.
  - change (render true ((seg, cs) :: groups))
      with (grouped_pred seg cs :: render true groups).
    cbn [map]. rewrite join_cons. reflexivity.
  - change (render false ((seg, cs) :: groups))
      with (map (with_speaker seg) cs ++ render false groups).
    rewrite map_app, join_app, pred_text_with_speaker. reflexivity.
Qed.

(** X8.  Both modes carry the same text: the joined texts of the grouped
    segments and the joined texts of the per-chunk predictions are the
    joined texts of the chunks that were attributed, the first chunks of
    the transcript; grouping neither loses nor reorders text. *)
Theorem align_modes_same_text (turns : list speaker_turn)
    (chunks : list chunk) (per_chunk : list pred) :
  post_process_segments_and_transcripts turns chunks false = Ok per_chunk ->
  exists grouped,
    post_process_segments_and_transcripts turns chunks true = Ok grouped /\
    length grouped <= length per_chunk /\
    String.concat "" (map pred_text grouped)
    = String.concat "" (map pred_text per_chunk) /\
    String.concat "" (map pred_text per_chunk)
    = String.concat "" (map text (firstn (length per_chunk) chunks)).
Proof.
  rewrite !post_process_trace.
  destruct (consumed turns chunks) as [groups|e] eqn:Hg; [|discriminate].
  cbn [bind]. intros [= <-]. exists (render true groups).
  destruct (consumed_prefix _ _ Hg) as [Hne Hpre].
  assert (Hlen : length (render false groups)
                 = length (concat (map snd groups)))
    by (rewrite <- (length_map chunk_of), chunk_of_render; reflexivity).
  split; [reflexivity|]. split; [|split].
  - rewrite render_grouped, length_map, Hlen.
    clear Hpre Hg Hlen. induction Hne as [|grp groups Hgrp _ IH]; [cbn; lia|].
    cbn [map concat length]. rewrite length_app.
    destruct (snd grp); [congruence | cbn [length]; lia].
  - rewrite !join_render. reflexivity.
  - rewrite join_render, Hlen, <- Hpre. reflexivity.
Qed.

Lemma align_modes_same_text_witness :
  exists grouped,
    post_process_segments_and_transcripts
      Examples.turns Examples.chunks true = Ok grouped /\
    length grouped
    <= length [with_speaker (Examples.turn 0 1.5 "A") Examples.hi;
               with_speaker (Examples.turn 0 1.5 "A") Examples.there;
               with_speaker (Examples.turn 1.5 3 "B") Examples.bob] /\
    String.concat "" (map pred_text grouped)
    = String.concat ""
        (map pred_text
           [with_speaker (Examples.turn 0 1.5 "A") Examples.hi;
            with_speaker (Examples.turn 0 1.5 "A") Examples.there;
            with_speaker (Examples.turn 1.5 3 "B") Examples.bob]) /\
    String.concat ""
      (map pred_text
         [with_speaker (Examples.turn 0 1.5 "A") Examples.hi;
          with_speaker (Examples.turn 0 1.5 "A") Examples.there;
          with_speaker (Examples.turn 1.5 3 "B") Examples.bob])
    = String.concat "" (map text (firstn 3 Examples.chunks)).
Proof.
  apply (@align_modes_same_text Examples.turns Examples.chunks).
  vm_compute. reflexivity.
Defined.

Lemma consumed_turns (turns : list speaker_turn) :
  forall (chunks : list chunk) (groups : list (speaker_turn * list chunk)),
    consumed turns chunks = Ok groups ->
    map fst groups = firstn (length groups) turns.
Proof.
  induction turns as [|t turns IH]; intros chunks groups Hgroups.
  - injection Hgroups as <-. reflexivity.
  - cbn [consumed] in Hgroups.
    destruct (cut_index chunks t) as [k|e]; [|discriminate].
    cbn [bind] in Hgroups.
    destruct (skipn (S k) chunks) as [|c rest].
    + injection Hgroups as <-. reflexivity.
    + destruct (consumed turns (c :: rest)) as [groups'|e] eqn:Hrec;
        [|discriminate].
      injection Hgroups as <-. cbn [map fst length firstn].
      rewrite (IH _ _ Hrec). reflexivity.
Qed.

(** X9.  In grouped mode there is one segment per processed turn, in the
    order of the turns: the speakers of the output are those of the
    first turns; there are at most as many segments as turns and as
    chunks, at least one when there is a turn; and when there are fewer
    segments than turns the whole transcript was attributed. *)
Theorem grouped_one_segment_per_turn (turns : list speaker_turn)
    (chunks : list chunk) (out : list pred) :
  chunks <> [] ->
  post_process_segments_and_transcripts turns chunks true = Ok out ->
  map pred_speaker out = map speaker (firstn (length out) turns) /\
  length out <= Nat.min (length turns) (length chunks) /\
  (turns <> [] -> out <> []) /\
  (length out < length turns ->
   String.concat "" (map pred_text out)
   = String.concat "" (map text chunks)).
Proof.
  intros Hne. rewrite post_process_trace.
  destruct (consumed turns chunks) as [groups|e] eqn:Hg; [|discriminate].
  cbn [bind]. intros [= <-].
  destruct (consumed_counts _ Hne Hg) as (Hle & Hsome & Hall & _).
  destruct (consumed_prefix _ _ Hg) as [Hgne Hpre].
  pose proof (consumed_turns _ _ Hg) as Hturns.
  assert (Hlen : length (render true groups) = length groups)
    by (rewrite render_grouped; apply length_map).
  assert (Hchunks : length groups <= length chunks).
  { apply (f_equal (@length chunk)) in Hpre.
    rewrite length_firstn in Hpre.
    assert (length groups <= length (concat (map snd groups))); [|lia].
    clear -Hgne. induction Hgne as [|grp groups Hgrp _ IH]; [cbn; lia|].
    cbn [map concat length]. rewrite length_app.
    destruct (snd grp); [congruence | cbn [length]; lia]. }
  rewrite Hlen. split; [|split; [|split]].
  - rewrite <- Hturns, render_grouped, !map_map. reflexivity.
  - lia.
  - intros Ht Hnil. apply (Hsome Ht).
    rewrite render_grouped in Hnil. destruct groups; [reflexivity|].
    discriminate Hnil.
  - intros Hlt. rewrite join_render, (Hall Hlt). reflexivity.
Qed.

Lemma grouped_one_segment_per_turn_witness :
  map pred_speaker
    [grouped_pred (Examples.turn 0 3 "A")
       [Examples.hi; Examples.there; Examples.bob]]
  = map speaker
      (firstn 1 [Examples.turn 0 3 "A"; Examples.turn 3 4 "B"]) /\
  1 <= Nat.min 2 (length Examples.chunks) /\
  ([Examples.turn 0 3 "A"; Examples.turn 3 4 "B"] <> [] ->
   [grouped_pred (Examples.turn 0 3 "A")
      [Examples.hi; Examples.there; Examples.bob]] <> []) /\
  (1 < 2 ->
   String.concat ""
     (map pred_text
        [grouped_pred (Examples.turn 0 3 "A")
           [Examples.hi; Examples.there; Examples.bob]])
   = String.concat "" (map text Examples.chunks)).
Proof.
  apply (@grouped_one_segment_per_turn
           [Examples.turn 0 3 "A"; Examples.turn 3 4 "B"] Examples.chunks).
  - discriminate.
  - vm_compute. reflexivity.
Defined.



Lemma consumed_app (rest pre : list speaker_turn) :
  forall (chunks : list chunk) (g1 : list (speaker_turn * list chunk)),
    chunks <> [] ->
    consumed pre chunks = Ok g1 ->
    consumed (pre ++ rest) chunks
    = match skipn (length (concat (map snd g1))) chunks with
      | [] => Ok g1
      | remaining => g2 <- consumed rest remaining ;; Ok (g1 ++ g2)
      end.
Proof.
  induction pre as [|t pre IH]; intros chunks g1 Hne Hg1.
  - injection Hg1 as <-. cbn [app map concat length skipn].
    destruct chunks as [|c chunks]; [congruence|].
    destruct (consumed rest (c :: chunks)); reflexivity.
  - cbn [app consumed] in *.
    destruct (cut_index chunks t) as [k|e] eqn:Hk; [|discriminate].
    apply cut_index_bound in Hk. cbn [bind] in *.
    assert (Hfl : length (firstn (S k) chunks) = S k)
      by (rewrite length_firstn; lia).
    set (front := firstn (S k) chunks) in *.
    destruct (skipn (S k) chunks) as [|c remaining] eqn:Hleft.
    + injection Hg1 as <-. cbn [map snd concat].
      rewrite app_nil_r, Hfl, Hleft. reflexivity.
    + destruct (consumed pre (c :: remaining)) as [g1'|e] eqn:Hrec;
        [|discriminate].
      injection Hg1 as <-. cbn [map snd concat].
      rewrite length_app, Hfl, (Nat.add_comm (S k)), <- skipn_skipn, Hleft.
      rewrite (IH (c :: remaining) g1'); [|discriminate|exact Hrec].
      destruct (skipn (length (concat (map snd g1'))) (c :: remaining))
        as [|c' remaining']; [reflexivity|].
      destruct (consumed rest (c' :: remaining')); reflexivity.
Qed.

(** X11.  Per-chunk alignment composes over the list of turns: the
    output for [pre ++ rest] is the output for [pre], followed, when
    [pre] leaves chunks, by the output of aligning [rest] with the
    chunks that are remaining. *)
Theorem align_composes_over_turns (pre rest : list speaker_turn)
    (chunks : list chunk) (out1 : list pred) :
  chunks <> [] ->
  post_process_segments_and_transcripts pre chunks false = Ok out1 ->
  post_process_segments_and_transcripts (pre ++ rest) chunks false
  = match skipn (length out1) chunks with
    | [] => Ok out1
    | remaining =>
        out2 <- post_process_segments_and_transcripts rest remaining false ;;
        Ok (out1 ++ out2)
    end.
Proof.
  intros Hne. rewrite !post_process_trace.
  destruct (consumed pre chunks) as [g1|e] eqn:Hg1; [|discriminate].
  cbn [bind]. intros [= <-].
  rewrite (consumed_app rest _ Hne Hg1).
  replace (length (render false g1))
    with (length (concat (map snd g1)))
    by (rewrite <- (length_map chunk_of (render false g1)), chunk_of_render;
        reflexivity).
  destruct (skipn (length (concat (map snd g1))) chunks) as [|c remaining];
    [reflexivity|].
  rewrite post_process_trace.
  destruct (consumed rest (c :: remaining)) as [g2|e]; [|reflexivity].
  cbn [bind]. unfold render. rewrite flat_map_app. reflexivity.
Qed.

Lemma align_composes_over_turns_witness :
  post_process_segments_and_transcripts
    ([Examples.turn 0 1.5 "A"] ++ [Examples.turn 1.5 3 "B"])
    Examples.chunks false
  = (out2 <- post_process_segments_and_transcripts
               [Examples.turn 1.5 3 "B"] [Examples.bob] false ;;
     Ok ([with_speaker (Examples.turn 0 1.5 "A") Examples.hi;
          with_speaker (Examples.turn 0 1.5 "A") Examples.there] ++ out2)).
Proof.
  apply (@align_composes_over_turns [Examples.turn 0 1.5 "A"]
           [Examples.turn 1.5 3 "B"] Examples.chunks
           [with_speaker (Examples.turn 0 1.5 "A") Examples.hi;
            with_speaker (Examples.turn 0 1.5 "A") Examples.there]).
  - discriminate.
  - vm_compute. reflexivity.
Defined.

(* ================================================================== *)
(** ** Properties of [diarize] *)

Lemma in_firstn (A : Type) (n : nat) (l : list A) (x : A) :
  In x (firstn n l) -> In x l.
Proof.
  intros Hin. rewrite <- (firstn_skipn n l). apply in_or_app. left.
  exact Hin.
Qed.

Lemma itertracks_segments_labels (tracks : list itertrack) :
  map label (itertracks_segments tracks) = map snd tracks.
Proof.
  unfold itertracks_segments. rewrite map_map. apply map_ext.
  intros [[seg name] lbl]. reflexivity.
Qed.

Lemma in_dedup_adjacent (x : string) (labels : list string) :
  In x (dedup_adjacent labels) -> In x labels.
Proof.
  induction labels as [|a tl IH]; [intros []|].
  destruct tl as [|b tl].
  - intros Hin. exact Hin.
  - change (dedup_adjacent (a :: b :: tl))
      with (if (a =? b)%string then dedup_adjacent (b :: tl)
            else a :: dedup_adjacent (b :: tl)).
    destruct (a =? b)%string.
    + intros Hin. right. apply IH, Hin.
    + intros [Heq|Hin]; [left; exact Heq | right; apply IH, Hin].
Qed.

Lemma render_speakers (g : bool)
    (groups : list (speaker_turn * list chunk)) :
  Forall (fun p => In (pred_speaker p) (map speaker (map fst groups)))
    (render g groups).
Proof.
  induction groups as [|[seg cs] groups IH]; [constructor|].
  change (render g ((seg, cs) :: groups))
    with (emitted g seg cs ++ render g groups).
  apply Forall_app. split.
  - apply Forall_forall. intros p Hp. left. destruct g; cbn in Hp.
    + destruct Hp as [<-|[]]. reflexivity.
    + apply in_map_iff in Hp. destruct Hp as (c & <- & _). reflexivity.
  - eapply Forall_impl; [|exact IH]. intros p Hp. right. exact Hp.
Qed.

(** X12.  [diarize] fails in two cases only: without tracks, with the
    [IndexError] of [segments[0]], whatever the chunks are; and with
    tracks but without chunks, with the [ValueError] of [np.argmin]. *)
Theorem diarize_failures (tracks : list itertrack) (chunks : list chunk) :
  match diarize tracks chunks with
  | Ok _ => tracks <> [] /\ chunks <> []
  | Raise IndexError => tracks = []
  | Raise ValueError => tracks <> [] /\ chunks = []
  end.
Proof.
  unfold diarize. destruct tracks as [|trk tracks]; [reflexivity|].
  cbn [itertracks_segments map]. rewrite diarize_audio_unfold. cbn [bind].
  match goal with
  | |- context [merge_from ?s ?s ?r] =>
      destruct (merge_from_head r s s) as (t & tl & -> & _)
  end.
  destruct chunks as [|c chunks].
  - cbn. split; [discriminate | reflexivity].
  - destruct (@post_process_defined false (t :: tl) (c :: chunks))
      as (out & ->); [discriminate|].
    split; discriminate.
Qed.

(** X13.  When [diarize] returns, its output starts with the first chunk
    under the label of the first track; it is, chunk for chunk and in
    order, a non-empty front of the transcript; and every speaker in it
    is the label of a track. *)
Theorem diarize_output (tracks : list itertrack) (chunks : list chunk)
    (out : list pred) :
  diarize tracks chunks = Ok out ->
  (exists trk tracks' c chunks' p out',
      tracks = trk :: tracks' /\ chunks = c :: chunks' /\ out = p :: out' /\
      pred_speaker p = snd trk /\ chunk_of p = c) /\
  length out <= length chunks /\
  map chunk_of out = firstn (length out) chunks /\
  Forall (fun p => In (pred_speaker p) (map snd tracks)) out.
Proof.
  intros Hout. unfold diarize in Hout.
  destruct tracks as [|trk tracks']; [discriminate Hout|].
  remember (itertracks_segments (trk :: tracks')) as segments eqn:Hsegs.
  pose proof (itertracks_segments_labels (trk :: tracks')) as Hlabels.
  rewrite <- Hsegs in Hlabels.
  destruct segments as [|s rest]; [discriminate Hsegs|].
  rewrite diarize_audio_unfold in Hout. cbn [bind] in Hout.
  pose proof (@merge_from_speakers rest s s eq_refl) as Hsp.
  destruct (merge_from_head rest s s) as (t & tl & Hhead & _ & Hfirst).
  destruct chunks as [|c chunks'];
    [rewrite Hhead in Hout; discriminate Hout|].
  destruct (post_process_per_chunk_front _ _ Hout) as (Hlen & Hfront).
  rewrite post_process_trace in Hout.
  destruct (consumed (merge_from s s rest) (c :: chunks')) as [groups|e]
    eqn:Hg; [|discriminate].
  cbn [bind] in Hout. injection Hout as <-.
  pose proof (consumed_turns _ _ Hg) as Hfst.
  destruct (consumed_prefix _ _ Hg) as [Hgne Hpre].
  destruct (@consumed_counts (merge_from s s rest) (c :: chunks') groups)
    as (_ & Hsome & _ & _); [discriminate | exact Hg |].
  split; [|split; [exact Hlen | split; [exact Hfront|]]].
  - destruct groups as [|[t0 cs] groups'].
    { exfalso. apply Hsome; [rewrite Hhead; discriminate | reflexivity]. }
    inversion Hgne as [|? ? Hcs _]; subst. cbn [snd] in Hcs.
    destruct cs as [|c0 cs]; [congruence|].
    cbn [map snd concat app length firstn] in Hpre.
    injection Hpre as -> _.
    rewrite Hhead in Hfst. cbn [map fst length firstn] in Hfst.
    injection Hfst as -> _.
    exists trk, tracks', c, chunks',
      (with_speaker t c), (map (with_speaker t) cs ++ render false groups').
    split; [reflexivity|]. split; [reflexivity|].
    split; [reflexivity|]. split; [|destruct c; reflexivity].
    cbn [with_speaker pred_speaker]. rewrite Hfirst.
    cbn [map] in Hlabels. injection Hlabels as -> _. reflexivity.
  - eapply Forall_impl; [|apply render_speakers].
    intros p Hp. cbn beta in Hp. rewrite Hfst in Hp. rewrite <- Hlabels.
    apply in_dedup_adjacent. cbn [map]. rewrite <- Hsp.
    apply in_map_iff in Hp. destruct Hp as (t' & <- & Ht').
    apply in_map. eapply in_firstn, Ht'.
Qed.

Lemma diarize_output_witness :
  (exists trk tracks' c chunks' p out',
      [({| start := 0%float; end_ := 1%float |}, "t0", "A");
       ({| start := 1%float; end_ := 1.5%float |}, "t1", "A");
       ({| start := 1.5%float; end_ := 3%float |}, "t2", "B")]
      = trk :: tracks' /\
      Examples.chunks = c :: chunks' /\
      [with_speaker (Examples.turn 0 1.5 "A") Examples.hi;
       with_speaker (Examples.turn 0 1.5 "A") Examples.there;
       with_speaker (Examples.turn 1.5 3 "B") Examples.bob] = p :: out' /\
      pred_speaker p = snd trk /\ chunk_of p = c) /\
  3 <= length Examples.chunks /\
  map chunk_of
    [with_speaker (Examples.turn 0 1.5 "A") Examples.hi;
     with_speaker (Examples.turn 0 1.5 "A") Examples.there;
     with_speaker (Examples.turn 1.5 3 "B") Examples.bob]
  = firstn 3 Examples.chunks /\
  Forall (fun p => In (pred_speaker p) ["A"; "A"; "B"])
    [with_speaker (Examples.turn 0 1.5 "A") Examples.hi;
     with_speaker (Examples.turn 0 1.5 "A") Examples.there;
     with_speaker (Examples.turn 1.5 3 "B") Examples.bob].
Proof.
  apply (@diarize_output
           [({| start := 0%float; end_ := 1%float |}, "t0", "A");
            ({| start := 1%float; end_ := 1.5%float |}, "t1", "A");
            ({| start := 1.5%float; end_ := 3%float |}, "t2", "B")]
           Examples.chunks).
  vm_compute. reflexivity.
Defined.
